(** * Deployment planner for Cloud Functions

    A shallow embedding of [src/deploy/functions/deploymentPlanner.ts]:
    the region mapper [createFunctionsByRegionMap], the flattening helper
    [flattenRegionMap] and the planner [createDeploymentPlan], followed by
    the properties of the specification that concern them.

    Conventions of the embedding.
    - A TypeScript optional field [f?: T] is an [option T]; a JavaScript
      object used as a string-keyed dictionary ([labels], the trigger
      descriptors) is a [gmap string string].
    - Records are values.  The places where the source mutates an object
      that the caller can still see are written as explicit state passing:
      the function returns the new value of what it mutated.  The records of
      a region map share no object with one another or with the existing
      records, as in the map the mapper returns, whose records are JSON
      copies.
    - A [RegionMap] is the list of the own enumerable properties of the
      JavaScript object, in enumeration order: the keys that are array
      indices first, in ascending order, then the other keys in the order of
      their creation.  The prototype of the object is [Object.prototype]
      with its standard members.
    - A statement that can throw yields a [completion]; where the caller
      can still see what was mutated before the exception, the state is
      returned beside the completion. *)

From stdpp Require Import base option list strings gmap.
From Stdlib Require Import ZArith Permutation.

Open Scope string_scope.
Open Scope list_scope.

(** ** Data model *)

Abbreviation Dict := (gmap string string).

(** [interface CloudFunctionTrigger].  [labels] is declared mandatory, but
    the planner reads it through [?.], so a record without labels is
    representable. *)
Record CloudFunctionTrigger := mkTrigger {
  name : string;
  sourceUploadUrl : option string;
  labels : option Dict;
  environmentVariables : Dict;
  entryPoint : string;
  runtime : option string;
  vpcConnector : option string;
  vpcConnectorEgressSettings : option string;
  ingressSettings : option string;
  availableMemoryMb : option Z;
  timeout : option Z;
  maxInstances : option Z;
  serviceAccountEmail : option string;
  httpsTrigger : option Dict;
  eventTrigger : option Dict;
  failurePolicy : option Dict;
  schedule : option Dict;
  timeZone : option string;
  regions : option (list string)
}.

Definition set_name (n : string) (t : CloudFunctionTrigger) : CloudFunctionTrigger :=
  mkTrigger n (sourceUploadUrl t) (labels t) (environmentVariables t)
    (entryPoint t) (runtime t) (vpcConnector t) (vpcConnectorEgressSettings t)
    (ingressSettings t) (availableMemoryMb t) (timeout t) (maxInstances t)
    (serviceAccountEmail t) (httpsTrigger t) (eventTrigger t) (failurePolicy t)
    (schedule t) (timeZone t) (regions t).

Definition set_regions (r : option (list string)) (t : CloudFunctionTrigger)
  : CloudFunctionTrigger :=
  mkTrigger (name t) (sourceUploadUrl t) (labels t) (environmentVariables t)
    (entryPoint t) (runtime t) (vpcConnector t) (vpcConnectorEgressSettings t)
    (ingressSettings t) (availableMemoryMb t) (timeout t) (maxInstances t)
    (serviceAccountEmail t) (httpsTrigger t) (eventTrigger t) (failurePolicy t)
    (schedule t) (timeZone t) r.

Definition set_eventTrigger (e : option Dict) (t : CloudFunctionTrigger)
  : CloudFunctionTrigger :=
  mkTrigger (name t) (sourceUploadUrl t) (labels t) (environmentVariables t)
    (entryPoint t) (runtime t) (vpcConnector t) (vpcConnectorEgressSettings t)
    (ingressSettings t) (availableMemoryMb t) (timeout t) (maxInstances t)
    (serviceAccountEmail t) (httpsTrigger t) e (failurePolicy t)
    (schedule t) (timeZone t) (regions t).

(** [interface RegionMap]: region identifier to the records of that region. *)
Abbreviation RegionMap := (list (string * list CloudFunctionTrigger)).

Record RegionalDeployment := mkRegional {
  region : string;
  sourceToken : option string;
  firstFunctionDeployment : option CloudFunctionTrigger;
  functionsToCreate : list CloudFunctionTrigger;
  functionsToUpdate : list CloudFunctionTrigger;
  schedulesToCreateOrUpdate : list CloudFunctionTrigger
}.

Record DeploymentPlan := mkPlan {
  regionalDeployments : list RegionalDeployment;
  functionsToDelete : list string;
  schedulesToDelete : list string
}.

(** ** Abrupt completion

    Two statements of the module can throw.  In the mapper, the call
    [regionMap[region].push(...)] at line 76, when [region] names a member
    that the object inherits from [Object.prototype]; in the planner, the
    assignment [fn.eventTrigger.resource = ...] at line 134, when
    [fn.eventTrigger] is [undefined].  The exception is the runtime's
    [TypeError], with the engine's message; nothing catches it. *)

Inductive exn : Type :=
  | TypeError (message : string).

Inductive completion (A : Type) : Type :=
  | Return (a : A)
  | Throw (e : exn).

Arguments Return {A} a.
Arguments Throw {A} e.

Definition bind {A B : Type} (c : completion A) (k : A → completion B)
  : completion B :=
  match c with
  | Return a => k a
  | Throw e => Throw e
  end.

Notation "'let*' x := c 'in' k" := (bind c (fun x => k))
  (at level 10, x pattern, c at level 100, k at level 200).

(** A [for ... of] loop whose body may throw: the state is threaded through
    the elements in order and the first exception ends the loop. *)
Fixpoint forOf {A S : Type} (body : A → S → completion S) (l : list A) (s : S)
  : completion S :=
  match l with
  | [] => Return s
  | x :: l' => let* s' := body x s in forOf body l' s'
  end.

(** ** Region maps as JavaScript objects *)

Module RegionMapOps.

(** [regionMap[region]] for an own property. *)
Fixpoint get (m : RegionMap) (r : string) : option (list CloudFunctionTrigger) :=
  match m with
  | [] => None
  | (k, v) :: m' => if String.eqb k r then Some v else get m' r
  end.

(** The value of a string of decimal digits. *)
Fixpoint decimal (s : string) (acc : N) : option N :=
  match s with
  | EmptyString => Some acc
  | String c s' =>
      match Ascii.is_nat c with
      | Some d => decimal s' (10 * acc + N.of_nat d)%N
      | None => None
      end
  end.

(** A property key is an array index when it is the canonical decimal
    form of an integer below [2^32 - 1]. *)
Definition arrayIndex (k : string) : option N :=
  match k with
  | EmptyString => None
  | String c s' =>
      match Ascii.is_nat c, s' with
      | Some 0, String _ _ => None
      | _, _ =>
          match decimal k 0 with
          | Some n => if (n <? 4294967295)%N then Some n else None
          | None => None
          end
      end
  end.

(** The members of [Object.prototype]: reading one of these keys on an
    object that does not own it yields the inherited member, which is
    truthy and has no [push]. *)
Definition inherited (r : string) : bool :=
  existsb (String.eqb r)
    ["constructor"; "hasOwnProperty"; "isPrototypeOf"; "propertyIsEnumerable";
     "toLocaleString"; "toString"; "valueOf"; "__proto__";
     "__defineGetter__"; "__defineSetter__";
     "__lookupGetter__"; "__lookupSetter__"].

(** [regionMap[r].push(t)] for an own property [r]: the property keeps its
    place in the enumeration order. *)
Fixpoint append (m : RegionMap) (r : string) (t : CloudFunctionTrigger) : RegionMap :=
  match m with
  | [] => []
  | (k, v) :: m' =>
      if String.eqb k r then (k, v ++ [t]) :: m' else (k, v) :: append m' r t
  end.

(** Creation of the own property with array index [i]: after the array
    indices below [i], before everything else. *)
Fixpoint defineIndex (i : N) (r : string) (v : list CloudFunctionTrigger)
    (m : RegionMap) : RegionMap :=
  match m with
  | [] => [(r, v)]
  | (k, w) :: m' =>
      match arrayIndex k with
      | Some j =>
          if (j <? i)%N then (k, w) :: defineIndex i r v m'
          else (r, v) :: (k, w) :: m'
      | None => (r, v) :: (k, w) :: m'
      end
  end.

(** Creation of an own property: an array index goes to its place among
    the array indices, any other key goes last. *)
Definition define (m : RegionMap) (r : string) (v : list CloudFunctionTrigger)
  : RegionMap :=
  match arrayIndex r with
  | Some i => defineIndex i r v m
  | None => m ++ [(r, v)]
  end.

(** Lines 75-76,
    [regionMap[region] = regionMap[region] || []; regionMap[region].push(t)].
    For an own property the array is pushed to.  Otherwise, when the key
    names an inherited member, that member is what [push] is called on,
    which is a [TypeError]; for any other key the property is created with
    the one record. *)
Definition push (m : RegionMap) (r : string) (t : CloudFunctionTrigger)
  : completion RegionMap :=
  match get m r with
  | Some _ => Return (append m r t)
  | None =>
      if inherited r
      then Throw (TypeError "regionMap[region].push is not a function")
      else Return (define m r [t])
  end.

End RegionMapOps.

(** ** The region mapper *)

Definition DEFAULT_REGION : string := "us-central1".

(** [["projects", projectId, "locations", region, "functions", name].join("/")] *)
Definition qualifiedName (projectId r localName : string) : string :=
  String.concat "/" ["projects"; projectId; "locations"; r; "functions"; localName].

(** Lines 57-59: [if (!trigger.regions) trigger.regions = ["us-central1"]].
    An array is truthy whatever its length, so only an absent field is
    replaced.  The result is the new value of the caller's object. *)
Definition fillRegions (trigger : CloudFunctionTrigger) : CloudFunctionTrigger :=
  match regions trigger with
  | None => set_regions (Some [DEFAULT_REGION]) trigger
  | Some _ => trigger
  end.

(** Lines 63-74: the JSON round trip copies the record, the [regions] field
    of the copy is deleted when present, and the name is qualified. *)
Definition regionalCopy (projectId : string) (trigger : CloudFunctionTrigger)
    (r : string) : CloudFunctionTrigger :=
  let triggerDeepCopy := trigger in
  let triggerDeepCopy :=
    match regions triggerDeepCopy with
    | Some _ => set_regions None triggerDeepCopy
    | None => triggerDeepCopy
    end in
  set_name (qualifiedName projectId r (name trigger)) triggerDeepCopy.

(** The inner loop, lines 62-77, over the regions of one trigger. *)
Definition projectTrigger (projectId : string) (trigger : CloudFunctionTrigger)
    (rs : list string) (regionMap : RegionMap) : completion RegionMap :=
  forOf (λ r regionMap,
           RegionMapOps.push regionMap r (regionalCopy projectId trigger r))
    rs regionMap.

(** The outer loop, lines 56-78.  The state is the region map; the first
    component of the result is the list of triggers as the loop leaves it:
    when an iteration throws, its trigger has been through line 58 and the
    triggers after it have not been reached. *)
Fixpoint mapTriggers (projectId : string) (parsedTriggers : list CloudFunctionTrigger)
    (regionMap : RegionMap)
  : list CloudFunctionTrigger * completion RegionMap :=
  match parsedTriggers with
  | [] => ([], Return regionMap)
  | trigger :: rest =>
      let trigger := fillRegions trigger in
      match
        projectTrigger projectId trigger (default [] (regions trigger)) regionMap
      with
      | Return regionMap =>
          let '(rest', outcome) := mapTriggers projectId rest regionMap in
          (trigger :: rest', outcome)
      | Throw e => (trigger :: rest, Throw e)
      end
  end.

(** [createFunctionsByRegionMap(projectId, parsedTriggers)]: the input list
    as the call leaves it, and the returned map or the exception. *)
Definition createFunctionsByRegionMap (projectId : string)
    (parsedTriggers : list CloudFunctionTrigger)
  : list CloudFunctionTrigger * completion RegionMap :=
  mapTriggers projectId parsedTriggers [].

(** [flattenRegionMap(regionMap)] *)
Definition flattenRegionMap (regionMap : RegionMap) : list CloudFunctionTrigger :=
  List.concat (List.map snd regionMap).

(** ** The planner *)

(** The mutable variables of [createDeploymentPlan]: the plan under
    construction and the parameter [existingFunctions], which line 146
    reassigns. *)
Record PlannerState := mkState {
  deployment : DeploymentPlan;
  existingFunctions : list CloudFunctionTrigger
}.

Definition push_schedulesToDelete (n : string) (d : DeploymentPlan) : DeploymentPlan :=
  mkPlan (regionalDeployments d) (functionsToDelete d) (schedulesToDelete d ++ [n]).

Definition push_regionalDeployment (rd : RegionalDeployment) (d : DeploymentPlan)
  : DeploymentPlan :=
  mkPlan (regionalDeployments d ++ [rd]) (functionsToDelete d) (schedulesToDelete d).

Definition set_functionsToDelete (ns : list string) (d : DeploymentPlan)
  : DeploymentPlan :=
  mkPlan (regionalDeployments d) ns (schedulesToDelete d).

Definition push_functionsToCreate (fn : CloudFunctionTrigger) (rd : RegionalDeployment)
  : RegionalDeployment :=
  mkRegional (region rd) (sourceToken rd) (firstFunctionDeployment rd)
    (functionsToCreate rd ++ [fn]) (functionsToUpdate rd)
    (schedulesToCreateOrUpdate rd).

Definition push_functionsToUpdate (fn : CloudFunctionTrigger) (rd : RegionalDeployment)
  : RegionalDeployment :=
  mkRegional (region rd) (sourceToken rd) (firstFunctionDeployment rd)
    (functionsToCreate rd) (functionsToUpdate rd ++ [fn])
    (schedulesToCreateOrUpdate rd).

Definition push_schedulesToCreateOrUpdate (fn : CloudFunctionTrigger)
    (rd : RegionalDeployment) : RegionalDeployment :=
  mkRegional (region rd) (sourceToken rd) (firstFunctionDeployment rd)
    (functionsToCreate rd) (functionsToUpdate rd)
    (schedulesToCreateOrUpdate rd ++ [fn]).

(** [x?.labels?.["deployment-scheduled"] === "true"] *)
Definition scheduledLabel (x : option CloudFunctionTrigger) : bool :=
  match x with
  | Some fn =>
      match labels fn with
      | Some l =>
          match l !! "deployment-scheduled" with
          | Some v => String.eqb v "true"
          | None => false
          end
      | None => false
      end
  | None => false
  end.

Arguments scheduledLabel : simpl never.

(** The three functions the module imports from [functionsDeployHelper] and
    [deploymentTool].  Their code lives in those modules; the planner is
    parametric in them, and they are taken to return a value on every
    argument. *)
Class Collaborators := {
  functionMatchesAnyGroup : string → list (list string) → bool;
  getTopicName : string → string;
  deploymentTool_check : option Dict → bool
}.

Section Planner.

Context {C : Collaborators}.

(** Line 134, [fn.eventTrigger.resource = getTopicName(fn.name)]: the new
    value of [fn], or the [TypeError] of an assignment to a property of
    [undefined]. *)
Definition setTopic (fn : CloudFunctionTrigger) : completion CloudFunctionTrigger :=
  match eventTrigger fn with
  | None => Throw (TypeError "Cannot set property 'resource' of undefined")
  | Some trigger =>
      Return (set_eventTrigger
                (Some (<["resource" := getTopicName (name fn)]> trigger)) fn)
  end.

(** Lines 122-150: the body of the loop over the functions of a region.
    [fn] is pushed after line 134 has updated it, so the lists hold the
    updated record. *)
Definition planFunction (filters : list (list string)) (fn : CloudFunctionTrigger)
    (st : PlannerState * RegionalDeployment)
  : completion (PlannerState * RegionalDeployment) :=
  let '(mkState deployment existingFunctions, regionalDeployment) := st in
  if functionMatchesAnyGroup (name fn) filters then
    let matchingExistingFunction :=
      List.find (λ exFn, String.eqb (name exFn) (name fn)) existingFunctions in
    let isMatchingExisitingFnScheduled := scheduledLabel matchingExistingFunction in
    let* (fn, deployment, regionalDeployment) :=
      match schedule fn with
      | Some _ =>
          let* fn := setTopic fn in
          Return (fn, deployment, push_schedulesToCreateOrUpdate fn regionalDeployment)
      | None =>
          if isMatchingExisitingFnScheduled then
            Return (fn,
                    push_schedulesToDelete
                      (from_option name "" matchingExistingFunction) deployment,
                    regionalDeployment)
          else Return (fn, deployment, regionalDeployment)
      end in
    match matchingExistingFunction with
    | None =>
        Return (mkState deployment existingFunctions,
                push_functionsToCreate fn regionalDeployment)
    | Some _ =>
        Return (mkState deployment
                  (List.filter (λ exFn, negb (String.eqb (name exFn) (name fn)))
                     existingFunctions),
                push_functionsToUpdate fn regionalDeployment)
    end
  else Return st.

(** Lines 113-153: the body of the loop over the regions of the map. *)
Definition planRegion (filters : list (list string))
    (entry : string * list CloudFunctionTrigger) (st : PlannerState)
  : completion PlannerState :=
  let '(r, localFunctionsInRegion) := entry in
  let regionalDeployment := mkRegional r None None [] [] [] in
  let* (mkState deployment existingFunctions, regionalDeployment) :=
    forOf (planFunction filters) localFunctionsInRegion (st, regionalDeployment) in
  Return (mkState (push_regionalDeployment regionalDeployment deployment)
            existingFunctions).

(** Lines 158-164: the two filters of the deletion pass. *)
Definition deletable (filters : list (list string))
    (existingFunctions : list CloudFunctionTrigger) : list CloudFunctionTrigger :=
  List.filter
    (λ fn, match filters with
           | [] => true
           | _ :: _ => functionMatchesAnyGroup (name fn) filters
           end)
    (List.filter (λ fn, deploymentTool_check (labels fn)) existingFunctions).

(** Lines 169-173: the loop over the functions to delete. *)
Fixpoint deleteSchedules (fns : list CloudFunctionTrigger) (d : DeploymentPlan)
  : DeploymentPlan :=
  match fns with
  | [] => d
  | fn :: fns' =>
      deleteSchedules fns'
        (if scheduledLabel (Some fn) then push_schedulesToDelete (name fn) d else d)
  end.

(** [createDeploymentPlan(functionsInSourceByRegion, existingFunctions, filters)] *)
Definition createDeploymentPlan (functionsInSourceByRegion : RegionMap)
    (existingFunctions : list CloudFunctionTrigger) (filters : list (list string))
  : completion DeploymentPlan :=
  let deployment := mkPlan [] [] [] in
  let* (mkState deployment existingFunctions) :=
    forOf (planRegion filters) functionsInSourceByRegion
      (mkState deployment existingFunctions) in
  let functionsToDelete := deletable filters existingFunctions in
  let deployment := set_functionsToDelete (List.map name functionsToDelete) deployment in
  Return (deleteSchedules functionsToDelete deployment).

End Planner.

(** * Vocabulary of the properties *)

(** ** Region maps *)

(** The records filed under a region, none when the region is absent. *)
Definition recordsOf (m : RegionMap) (r : string) : list CloudFunctionTrigger :=
  default [] (RegionMapOps.get m r).

(** Every property of the object holds a non-empty array. *)
Definition populated (m : RegionMap) : Prop :=
  Forall (λ e : string * list CloudFunctionTrigger, e.2 ≠ []) m.

(** The region is no member of [Object.prototype]. *)
Definition ordinary (r : string) : bool := negb (RegionMapOps.inherited r).

(** No own property of the object has the name of such a member. *)
Definition ordinaryKeys (m : RegionMap) : Prop :=
  ∀ k, In k (List.map fst m) → RegionMapOps.inherited k = false.

(** The region list the loop at line 62 iterates over. *)
Definition effectiveRegions (t : CloudFunctionTrigger) : list string :=
  match regions t with
  | Some rs => rs
  | None => [DEFAULT_REGION]
  end.

(** The record produced for a trigger and one of its regions: the trigger
    without [regions] and with the qualified name. *)
Definition projection (projectId : string) (t : CloudFunctionTrigger) (r : string)
  : CloudFunctionTrigger :=
  set_name (qualifiedName projectId r (name t)) (set_regions None t).

(** How often a region occurs in a region list. *)
Definition occurrences (r : string) (rs : list string) : nat :=
  length (List.filter (String.eqb r) rs).

(** What a completed loop over the regions of a trigger has done to the
    map. *)
Record projected (projectId : string) (t : CloudFunctionTrigger) (rs : list string)
    (m m' : RegionMap) : Prop := {
  pj_records : ∀ r,
    recordsOf m' r =
    recordsOf m r ++ repeat (regionalCopy projectId t r) (occurrences r rs);
  pj_populated : populated m → populated m';
  pj_keys : NoDup (List.map fst m) → NoDup (List.map fst m');
  pj_flatten :
    flattenRegionMap m' ≡ₚ
    flattenRegionMap m ++ List.map (regionalCopy projectId t) rs;
  pj_ordinary :
    ordinaryKeys m → ordinaryKeys m' ∧ forallb ordinary rs = true
}.

(** What a completed call has done to the map and to the list. *)
Record mapped (projectId : string) (ts ts' : list CloudFunctionTrigger)
    (m m' : RegionMap) : Prop := {
  mp_input : ts' = List.map fillRegions ts;
  mp_records : ∀ r,
    recordsOf m' r =
    recordsOf m r ++
    flat_map (λ t, repeat (projection projectId t r)
                     (occurrences r (effectiveRegions t))) ts;
  mp_populated : populated m → populated m';
  mp_keys : NoDup (List.map fst m) → NoDup (List.map fst m');
  mp_flatten :
    flattenRegionMap m' ≡ₚ
    flattenRegionMap m ++
    flat_map (λ t, List.map (projection projectId t) (effectiveRegions t)) ts;
  mp_ordinary :
    ordinaryKeys m →
    ordinaryKeys m' ∧ forallb ordinary (flat_map effectiveRegions ts) = true
}.

(** ** Plans *)

(** Truthiness of an optional object-valued field. *)
Definition present {A : Type} (o : option A) : bool :=
  match o with Some _ => true | None => false end.

(** All the names filed for creation or update, region after region. *)
Definition filedNames (plan : DeploymentPlan) : list string :=
  flat_map (λ rd, List.map name (functionsToCreate rd ++ functionsToUpdate rd))
    (regionalDeployments plan).

Section Vocabulary.

Context {C : Collaborators}.
Variable filters : list (list string).

(** The desired record passes the [--only] filters (line 123). *)
Definition selected (fn : CloudFunctionTrigger) : bool :=
  functionMatchesAnyGroup (name fn) filters.

(** The record as the planner files it: with the topic as the resource of
    its event trigger when it is scheduled, untouched otherwise. *)
Definition planned (fn : CloudFunctionTrigger) : CloudFunctionTrigger :=
  match schedule fn, eventTrigger fn with
  | Some _, Some trigger =>
      set_eventTrigger (Some (<["resource" := getTopicName (name fn)]> trigger)) fn
  | _, _ => fn
  end.

(** The iteration for [fn] reaches line 134 with no event trigger to
    assign to. *)
Definition malformed (fn : CloudFunctionTrigger) : bool :=
  selected fn && present (schedule fn) && negb (present (eventTrigger fn)).

Definition wellformed (fn : CloudFunctionTrigger) : bool := negb (malformed fn).

(** The effect of a completed iteration on the three mutable variables. *)
Definition matching (fn : CloudFunctionTrigger) (ex : list CloudFunctionTrigger)
  : option CloudFunctionTrigger :=
  List.find (λ exFn, String.eqb (name exFn) (name fn)) ex.

Definition unmatched (fn : CloudFunctionTrigger) (ex : list CloudFunctionTrigger)
  : list CloudFunctionTrigger :=
  List.filter (λ exFn, negb (String.eqb (name exFn) (name fn))) ex.

Definition dropSchedule (fn : CloudFunctionTrigger) (ex : list CloudFunctionTrigger)
    (d : DeploymentPlan) : DeploymentPlan :=
  if negb (present (schedule fn)) && scheduledLabel (matching fn ex)
  then push_schedulesToDelete (name fn) d else d.

Definition fileFunction (fn : CloudFunctionTrigger) (ex : list CloudFunctionTrigger)
    (rd : RegionalDeployment) : RegionalDeployment :=
  let rd :=
    if present (schedule fn)
    then push_schedulesToCreateOrUpdate (planned fn) rd else rd in
  if present (matching fn ex)
  then push_functionsToUpdate (planned fn) rd
  else push_functionsToCreate (planned fn) rd.

(** What holds after the loop over the functions of one region has run
    over [fns] from the plan [d0], the working set [ex0] and the regional
    deployment [rd0]. *)
Record regionPlanned (fns : list CloudFunctionTrigger)
    (d0 : DeploymentPlan) (ex0 : list CloudFunctionTrigger) (rd0 : RegionalDeployment)
    (d : DeploymentPlan) (ex : list CloudFunctionTrigger) (rd : RegionalDeployment)
  : Prop := {
  rp_existing : ∀ e,
    In e ex ↔
    In e ex0 ∧ ∀ fn, In fn fns → selected fn = true → name fn ≠ name e;
  rp_regionals : regionalDeployments d = regionalDeployments d0;
  rp_deleted : functionsToDelete d = functionsToDelete d0;
  rp_schedDel : ∀ n,
    In n (schedulesToDelete d) →
    In n (schedulesToDelete d0) ∨
    ∃ fn, In fn fns ∧ selected fn = true ∧ schedule fn = None ∧ name fn = n;
  rp_region : region rd = region rd0;
  rp_files :
    functionsToCreate rd ++ functionsToUpdate rd ≡ₚ
    (functionsToCreate rd0 ++ functionsToUpdate rd0) ++
    List.map planned (List.filter selected fns);
  rp_sched :
    schedulesToCreateOrUpdate rd =
    schedulesToCreateOrUpdate rd0 ++
    List.map planned (List.filter (λ fn, selected fn && present (schedule fn)) fns);
  rp_update : ∀ f,
    In f (functionsToUpdate rd) →
    In f (functionsToUpdate rd0) ∨ ∃ e, In e ex0 ∧ name e = name f;
  rp_create : ∀ fn,
    In fn fns → selected fn = true →
    (∀ e, In e ex0 → name e ≠ name fn) →
    In (planned fn) (functionsToCreate rd);
  rp_wellformed : ∀ fn, In fn fns → malformed fn = false
}.

(** How the regional deployment [rd] relates to the entry of the map it
    was computed from; [ex0] is the list of existing functions the planner
    was called with. *)
Record regionFiled (ex0 : list CloudFunctionTrigger)
    (entry : string * list CloudFunctionTrigger) (rd : RegionalDeployment)
  : Prop := {
  rf_region : region rd = entry.1;
  rf_files :
    functionsToCreate rd ++ functionsToUpdate rd ≡ₚ
    List.map planned (List.filter selected entry.2);
  rf_sched :
    schedulesToCreateOrUpdate rd =
    List.map planned
      (List.filter (λ fn, selected fn && present (schedule fn)) entry.2);
  rf_update : ∀ f,
    In f (functionsToUpdate rd) → ∃ e, In e ex0 ∧ name e = name f;
  rf_create : ∀ fn,
    In fn entry.2 → selected fn = true →
    (∀ e, In e ex0 → name e ≠ name fn) →
    In (planned fn) (functionsToCreate rd)
}.

(** What holds after the loop over the regions has run over the entries
    [m] of the map from the empty plan and the existing functions [ex0]. *)
Record regionsPlanned (m : RegionMap) (ex0 : list CloudFunctionTrigger)
    (d : DeploymentPlan) (ex : list CloudFunctionTrigger) : Prop := {
  rs_existing : ∀ e,
    In e ex ↔
    In e ex0 ∧
    ∀ fn, In fn (flattenRegionMap m) → selected fn = true → name fn ≠ name e;
  rs_regionals : Forall2 (regionFiled ex0) m (regionalDeployments d);
  rs_deleted : functionsToDelete d = [];
  rs_schedDel : ∀ n,
    In n (schedulesToDelete d) →
    ∃ fn, In fn (flattenRegionMap m) ∧ selected fn = true ∧
          schedule fn = None ∧ name fn = n;
  rs_wellformed : ∀ fn, In fn (flattenRegionMap m) → malformed fn = false
}.

End Vocabulary.

(** ** Orphans *)

(** Some filter-selected function of [fns] has the name of the existing
    record [e]; an orphan of a region map is an existing record that no
    filter-selected desired record has the name of. *)
Definition claimedBy {C : Collaborators} (filters : list (list string))
    (fns : list CloudFunctionTrigger) (e : CloudFunctionTrigger) : bool :=
  existsb (λ fn, selected filters fn && String.eqb (name e) (name fn)) fns.

Definition orphan {C : Collaborators} (filters : list (list string))
    (m : RegionMap) (e : CloudFunctionTrigger) : bool :=
  negb (claimedBy filters (flattenRegionMap m) e).

(** ** The diff against the existing functions *)

(** The three decisions of the planner for a desired function, taken
    against the list of existing functions the planner was called with:
    filed for creation, filed for update, schedule dropped. *)
Definition toCreate {C : Collaborators} (filters : list (list string))
    (ex0 : list CloudFunctionTrigger) (fn : CloudFunctionTrigger) : bool :=
  selected filters fn && negb (present (matching fn ex0)).

Definition toUpdate {C : Collaborators} (filters : list (list string))
    (ex0 : list CloudFunctionTrigger) (fn : CloudFunctionTrigger) : bool :=
  selected filters fn && present (matching fn ex0).

Definition losesSchedule {C : Collaborators} (filters : list (list string))
    (ex0 : list CloudFunctionTrigger) (fn : CloudFunctionTrigger) : bool :=
  selected filters fn && negb (present (schedule fn)) &&
  scheduledLabel (matching fn ex0).

(** * Instances of the collaborators used in the worked examples *)

Module Sample.

(** [occurs p s]: [p] occurs in [s] as a contiguous substring. *)
Fixpoint occurs (p s : string) : bool :=
  String.prefix p s ||
  match s with
  | EmptyString => false
  | String _ s' => occurs p s'
  end.

(** Modelled from the spec: [functionMatchesAnyGroup] of
    [functionsDeployHelper], whose code is not in [deploymentPlanner.ts].
    The spec says that it is true when the name is selected by at
    least one filter group, that a group is a conjunction of name-matching
    constraints, and that the empty filter list selects everything.  It
    leaves the form of a constraint open; here a constraint is a string
    that has to occur in the name. *)
Definition matchesAnyGroup (fnName : string) (filterGroups : list (list string))
  : bool :=
  match filterGroups with
  | [] => true
  | _ :: _ => existsb (λ group, forallb (λ c, occurs c fnName) group) filterGroups
  end.

(** Modelled from the spec: [getTopicName] of [functionsDeployHelper],
    the topic-name deriver.  The spec only says that the topic identifier
    is computed from the function name. *)
Definition topicName (fnName : string) : string :=
  String.append "firebase-schedule-" fnName.

(** Modelled from the spec: [check] of [deploymentTool], the ownership
    check on the [deployment-tool] label; the comment at line 156 of the
    planner names the label value. *)
Definition check (l : option Dict) : bool :=
  match l with
  | Some l =>
      match l !! "deployment-tool" with
      | Some v => String.eqb v "firebase-cli"
      | None => false
      end
  | None => false
  end.

Definition collaborators : Collaborators :=
  {| functionMatchesAnyGroup := matchesAnyGroup;
     getTopicName := topicName;
     deploymentTool_check := check |}.

Definition plan := @createDeploymentPlan collaborators.

(** A record with only the mandatory fields and the ones the planner reads. *)
Definition fn (n : string) (l : Dict) (e s : option Dict) (rs : option (list string))
  : CloudFunctionTrigger :=
  mkTrigger n None (Some l) ∅ n None None None None None None None None None
    e None s None rs.

Definition owned : Dict := {[ "deployment-tool" := "firebase-cli" ]}.
Definition ownedScheduled : Dict :=
  <[ "deployment-scheduled" := "true" ]> owned.
Definition pubsub : Dict := {[ "eventType" := "google.pubsub.topic.publish" ]}.
Definition everyMinute : Dict := {[ "schedule" := "every 1 minutes" ]}.

(** A deployment of two definitions, a scheduled job in the default region
    and an HTTPS function in two regions, against a backend holding an
    earlier, scheduled version of the function, an orphan of the tool and a
    function created by hand. *)
Definition jobDef : CloudFunctionTrigger :=
  fn "job" ∅ (Some pubsub) (Some everyMinute) None.
Definition apiDef : CloudFunctionTrigger :=
  fn "api" ∅ None None (Some ["us-central1"; "europe-west1"]).

Definition demoMap : RegionMap :=
  match (createFunctionsByRegionMap "demo" [jobDef; apiDef]).2 with
  | Return m => m
  | Throw _ => []
  end.

(** The input list as the mapper leaves it. *)
Definition demoFilled : list CloudFunctionTrigger :=
  List.map fillRegions [jobDef; apiDef].

Definition jobRecord : CloudFunctionTrigger := projection "demo" jobDef "us-central1".
Definition apiRecord : CloudFunctionTrigger := projection "demo" apiDef "us-central1".

Definition oldName : string := "projects/demo/locations/us-central1/functions/old".

Definition demoExisting : list CloudFunctionTrigger :=
  [fn "projects/demo/locations/us-central1/functions/api" ownedScheduled None None None;
   fn oldName ownedScheduled None None None;
   fn "projects/demo/locations/us-central1/functions/manual" ∅ None None None].

Definition noPlan : DeploymentPlan := mkPlan [] [] [].

Definition demoPlan : DeploymentPlan :=
  match plan demoMap demoExisting [] with
  | Return p => p
  | Throw _ => noPlan
  end.

(** The plan for the same map against an empty backend. *)
Definition freshPlan : DeploymentPlan :=
  match plan demoMap [] [] with
  | Return p => p
  | Throw _ => noPlan
  end.

(** The deployment of the default region in [demoPlan]. *)
Definition demoRegional : RegionalDeployment :=
  hd (mkRegional "" None None [] [] []) (regionalDeployments demoPlan).

(** Definitions with [regions: []], with no [regions] field and with the
    same region twice. *)
Definition noRegionDef : CloudFunctionTrigger := fn "api" ∅ None None (Some []).
Definition plainDef : CloudFunctionTrigger := fn "api" ∅ None None None.
Definition repeatedDef : CloudFunctionTrigger :=
  fn "api" ∅ None None (Some ["us-east1"; "us-east1"]).

(** A definition whose one region is the name of a member of
    [Object.prototype]. *)
Definition prototypeDef : CloudFunctionTrigger :=
  fn "api" ∅ None None (Some ["constructor"]).

(** The maps returned for [apiDef] alone and for [repeatedDef] alone. *)
Definition apiMap : RegionMap :=
  match (createFunctionsByRegionMap "demo" [apiDef]).2 with
  | Return m => m
  | Throw _ => []
  end.
Definition repeatedMap : RegionMap :=
  match (createFunctionsByRegionMap "demo" [repeatedDef]).2 with
  | Return m => m
  | Throw _ => []
  end.

(** Two desired records of one name, without and with a schedule, and the
    existing scheduled function of that name. *)
Definition reportName : string :=
  "projects/demo/locations/us-central1/functions/report".
Definition reportPlain : CloudFunctionTrigger := fn reportName ∅ None None None.
Definition reportTimed : CloudFunctionTrigger :=
  fn reportName ∅ (Some pubsub) (Some everyMinute) None.
Definition reportExisting : CloudFunctionTrigger :=
  fn reportName ownedScheduled None None None.

(** A scheduled record with no event trigger. *)
Definition brokenJob : CloudFunctionTrigger :=
  fn "projects/demo/locations/us-central1/functions/job" ∅ None (Some everyMinute) None.

(** The plan that files nothing for the one region [r]. *)
Definition idlePlan (r : string) : DeploymentPlan :=
  mkPlan [mkRegional r None None [] [] []] [] [].

End Sample.

(** * Properties of the region mapper *)

(** ** Strings *)

Lemma append_cons (c : Ascii.ascii) (a b : string) :
  String.append (String c a) b = String c (String.append a b).
Proof. reflexivity. Qed.

Lemma length_append (a b : string) :
  String.length (String.append a b) = String.length a + String.length b.
Proof.
  induction a as [|c a IH]; [reflexivity|].
  rewrite append_cons. simpl. by rewrite IH.
Qed.

Lemma append_inv_tail (a b s : string) :
  String.append a s = String.append b s → a = b.
Proof.
  revert b. induction a as [|c a IH]; intros [|d b] Heq.
  - reflexivity.
  - apply (f_equal String.length) in Heq.
    rewrite !length_append in Heq. simpl in Heq. lia.
  - apply (f_equal String.length) in Heq.
    rewrite !length_append in Heq. simpl in Heq. lia.
  - rewrite !append_cons in Heq. injection Heq as -> Heq.
    f_equal. by apply IH.
Qed.

(** For a fixed project and local name the qualified name determines the
    region. *)
Lemma qualifiedName_inj_region (projectId n r1 r2 : string) :
  qualifiedName projectId r1 n = qualifiedName projectId r2 n → r1 = r2.
Proof.
  unfold qualifiedName. simpl. intros Heq.
  repeat apply String.app_inj in Heq.
  by apply append_inv_tail in Heq.
Qed.

(** ** Reading a region map *)

Lemma populated_get (m : RegionMap) (r : string) :
  populated m →
  RegionMapOps.get m r =
  match recordsOf m r with [] => None | l => Some l end.
Proof.
  unfold populated, recordsOf.
  induction 1 as [|[k v] m Hv Hm IH]; simpl; [done|].
  destruct (String.eqb k r); simpl.
  - simpl in Hv. by destruct v.
  - apply IH.
Qed.

Lemma In_keys (m : RegionMap) (r : string) :
  In r (List.map fst m) ↔ is_Some (RegionMapOps.get m r).
Proof.
  induction m as [|[k v] m IH]; simpl.
  - split; [done | by intros [? ?]].
  - destruct (String.eqb k r) eqn:Hkr.
    + apply String.eqb_eq in Hkr as ->. split; [eauto | by left].
    + apply String.eqb_neq in Hkr. rewrite <- IH. split; [|by right].
      intros [?|?]; done.
Qed.

(** ** Writing a region map *)

Lemma get_append (m : RegionMap) (r r' : string) (t : CloudFunctionTrigger) :
  RegionMapOps.get (RegionMapOps.append m r t) r' =
  if String.eqb r r'
  then (λ v, v ++ [t]) <$> RegionMapOps.get m r
  else RegionMapOps.get m r'.
Proof.
  induction m as [|[k v] m IH]; simpl.
  - by destruct (String.eqb r r').
  - destruct (String.eqb k r) eqn:Hkr; simpl.
    + apply String.eqb_eq in Hkr as ->.
      by destruct (String.eqb r r').
    + destruct (String.eqb k r') eqn:Hkr'; [|apply IH].
      apply String.eqb_eq in Hkr' as ->.
      rewrite String.eqb_sym in Hkr. by rewrite Hkr.
Qed.

Lemma get_cons_None (k r : string) (w : list CloudFunctionTrigger) (m : RegionMap) :
  RegionMapOps.get ((k, w) :: m) r = None →
  String.eqb k r = false ∧ RegionMapOps.get m r = None.
Proof. simpl. by destruct (String.eqb k r). Qed.

Lemma get_new (k r r' : string) :
  String.eqb k r = false → String.eqb k r' = true → String.eqb r r' = false.
Proof.
  intros Hkr ->%String.eqb_eq. by rewrite String.eqb_sym.
Qed.

Lemma get_defineIndex (i : N) (m : RegionMap) (r r' : string)
    (v : list CloudFunctionTrigger) :
  RegionMapOps.get m r = None →
  RegionMapOps.get (RegionMapOps.defineIndex i r v m) r' =
  if String.eqb r r' then Some v else RegionMapOps.get m r'.
Proof.
  induction m as [|[k w] m IH]; intros Hnone; [done|].
  apply get_cons_None in Hnone as [Hkr Hnone]. simpl.
  destruct (RegionMapOps.arrayIndex k) as [j|]; [|done].
  destruct (j <? i)%N; [|done]. simpl. rewrite (IH Hnone).
  destruct (String.eqb k r') eqn:Hkr'; [|done].
  by rewrite (get_new k r r').
Qed.

Lemma get_snoc (m : RegionMap) (r r' : string) (v : list CloudFunctionTrigger) :
  RegionMapOps.get m r = None →
  RegionMapOps.get (m ++ [(r, v)]) r' =
  if String.eqb r r' then Some v else RegionMapOps.get m r'.
Proof.
  induction m as [|[k w] m IH]; intros Hnone; [done|].
  apply get_cons_None in Hnone as [Hkr Hnone]. simpl. rewrite (IH Hnone).
  destruct (String.eqb k r') eqn:Hkr'; [|done].
  by rewrite (get_new k r r').
Qed.

Lemma get_define (m : RegionMap) (r r' : string) (v : list CloudFunctionTrigger) :
  RegionMapOps.get m r = None →
  RegionMapOps.get (RegionMapOps.define m r v) r' =
  if String.eqb r r' then Some v else RegionMapOps.get m r'.
Proof.
  intros Hnone. unfold RegionMapOps.define.
  destruct (RegionMapOps.arrayIndex r); [by apply get_defineIndex | by apply get_snoc].
Qed.

(** What [push] does when it completes, and when it does. *)
Lemma push_Return (m m' : RegionMap) (r : string) (t : CloudFunctionTrigger) :
  RegionMapOps.push m r t = Return m' →
  (is_Some (RegionMapOps.get m r) ∧ m' = RegionMapOps.append m r t) ∨
  (RegionMapOps.get m r = None ∧ RegionMapOps.inherited r = false ∧
   m' = RegionMapOps.define m r [t]).
Proof.
  unfold RegionMapOps.push. destruct (RegionMapOps.get m r) eqn:Hget.
  - intros [= <-]. left. eauto.
  - destruct (RegionMapOps.inherited r); [done|]. intros [= <-]. by right.
Qed.

Lemma get_push (m m' : RegionMap) (r r' : string) (t : CloudFunctionTrigger) :
  RegionMapOps.push m r t = Return m' →
  RegionMapOps.get m' r' =
  if String.eqb r r' then Some (recordsOf m r ++ [t]) else RegionMapOps.get m r'.
Proof.
  unfold recordsOf.
  intros [[[v Hv] ->]|(Hnone & _ & ->)]%push_Return.
  - rewrite get_append, Hv. done.
  - rewrite get_define, Hnone by done. done.
Qed.

Lemma recordsOf_push (m m' : RegionMap) (r r' : string) (t : CloudFunctionTrigger) :
  RegionMapOps.push m r t = Return m' →
  recordsOf m' r' = recordsOf m r' ++ (if String.eqb r r' then [t] else []).
Proof.
  intros Hpush. unfold recordsOf at 1. rewrite (get_push _ _ _ _ _ Hpush).
  destruct (String.eqb r r') eqn:Hr; simpl.
  - apply String.eqb_eq in Hr as ->. reflexivity.
  - by rewrite app_nil_r.
Qed.

Lemma populated_append (m : RegionMap) (r : string) (t : CloudFunctionTrigger) :
  populated m → populated (RegionMapOps.append m r t).
Proof.
  unfold populated. induction 1 as [|[k v] m Hv Hm IH]; simpl; [constructor|].
  destruct (String.eqb k r); constructor; simpl in *; auto.
  by destruct v.
Qed.

Lemma keys_append (m : RegionMap) (r : string) (t : CloudFunctionTrigger) :
  List.map fst (RegionMapOps.append m r t) = List.map fst m.
Proof.
  induction m as [|[k v] m IH]; simpl; [done|].
  destruct (String.eqb k r); simpl; by rewrite ?IH.
Qed.

Lemma flattenRegionMap_append (m : RegionMap) (r : string) (t : CloudFunctionTrigger) :
  is_Some (RegionMapOps.get m r) →
  flattenRegionMap (RegionMapOps.append m r t) ≡ₚ flattenRegionMap m ++ [t].
Proof.
  unfold flattenRegionMap. induction m as [|[k v] m IH]; simpl.
  - by intros [? ?].
  - destruct (String.eqb k r); simpl; intros Hsome.
    + rewrite <- !app_assoc. apply Permutation_app_head. apply Permutation_app_comm.
    + rewrite (IH Hsome). by rewrite app_assoc.
Qed.

(** A created property is one more entry of the object, wherever the
    enumeration order puts it. *)
Lemma defineIndex_Permutation (i : N) (m : RegionMap) (r : string)
    (v : list CloudFunctionTrigger) :
  RegionMapOps.defineIndex i r v m ≡ₚ (r, v) :: m.
Proof.
  induction m as [|[k w] m IH]; simpl; [done|].
  destruct (RegionMapOps.arrayIndex k) as [j|]; [|done].
  destruct (j <? i)%N; [|done]. rewrite IH. apply perm_swap.
Qed.

Lemma define_Permutation (m : RegionMap) (r : string) (v : list CloudFunctionTrigger) :
  RegionMapOps.define m r v ≡ₚ (r, v) :: m.
Proof.
  unfold RegionMapOps.define. destruct (RegionMapOps.arrayIndex r).
  - apply defineIndex_Permutation.
  - symmetry. apply Permutation_cons_append.
Qed.

Lemma populated_push (m m' : RegionMap) (r : string) (t : CloudFunctionTrigger) :
  RegionMapOps.push m r t = Return m' → populated m → populated m'.
Proof.
  intros [[_ ->]|(_ & _ & ->)]%push_Return Hm.
  - by apply populated_append.
  - unfold populated. rewrite define_Permutation. by constructor.
Qed.

Lemma NoDup_keys_push (m m' : RegionMap) (r : string) (t : CloudFunctionTrigger) :
  RegionMapOps.push m r t = Return m' →
  NoDup (List.map fst m) → NoDup (List.map fst m').
Proof.
  intros [[_ ->]|(Hnone & _ & ->)]%push_Return Hm.
  - by rewrite keys_append.
  - rewrite (Permutation_map fst (define_Permutation m r [t])). simpl.
    constructor; [|done].
    intros [? Hk]%list_elem_of_In%In_keys. congruence.
Qed.

Lemma flattenRegionMap_push (m m' : RegionMap) (r : string) (t : CloudFunctionTrigger) :
  RegionMapOps.push m r t = Return m' →
  flattenRegionMap m' ≡ₚ flattenRegionMap m ++ [t].
Proof.
  intros [[Hsome ->]|(_ & _ & ->)]%push_Return.
  - by apply flattenRegionMap_append.
  - unfold flattenRegionMap.
    rewrite (Permutation_map snd (define_Permutation m r [t])). simpl.
    apply Permutation_cons_append.
Qed.

Lemma ordinaryKeys_push (m m' : RegionMap) (r : string) (t : CloudFunctionTrigger) :
  RegionMapOps.push m r t = Return m' →
  ordinaryKeys m → ordinaryKeys m' ∧ RegionMapOps.inherited r = false.
Proof.
  intros [[Hsome ->]|(_ & Hr & ->)]%push_Return Hm.
  - rewrite <- In_keys in Hsome. split; [|by apply Hm].
    unfold ordinaryKeys. by rewrite keys_append.
  - split; [|done]. intros k Hk.
    apply (Permutation_in _ (Permutation_map fst (define_Permutation m r [t])))
      in Hk as [<-|Hk]; [done | by apply Hm].
Qed.

Lemma push_ordinary (m : RegionMap) (r : string) (t : CloudFunctionTrigger) :
  RegionMapOps.inherited r = false → ∃ m', RegionMapOps.push m r t = Return m'.
Proof.
  intros Hr. unfold RegionMapOps.push. rewrite Hr.
  destruct (RegionMapOps.get m r); eauto.
Qed.

Lemma push_inherited (m : RegionMap) (r : string) (t : CloudFunctionTrigger) :
  ordinaryKeys m → RegionMapOps.inherited r = true →
  RegionMapOps.push m r t =
  Throw (TypeError "regionMap[region].push is not a function").
Proof.
  intros Hm Hr. unfold RegionMapOps.push.
  destruct (RegionMapOps.get m r) eqn:Hget; [|by rewrite Hr].
  assert (RegionMapOps.inherited r = false); [|congruence].
  apply Hm, In_keys. eauto.
Qed.

(** ** What the mapper files under a region *)

Lemma regions_fillRegions (t : CloudFunctionTrigger) :
  regions (fillRegions t) = Some (effectiveRegions t).
Proof. unfold fillRegions, effectiveRegions. by destruct (regions t) eqn:E. Qed.

Lemma regionalCopy_fillRegions (projectId : string) (t : CloudFunctionTrigger)
    (r : string) :
  regionalCopy projectId (fillRegions t) r = projection projectId t r.
Proof.
  unfold regionalCopy. rewrite regions_fillRegions.
  unfold fillRegions, projection. by destruct (regions t).
Qed.

Lemma fillRegions_idemp (t : CloudFunctionTrigger) :
  fillRegions (fillRegions t) = fillRegions t.
Proof. unfold fillRegions at 1. by rewrite regions_fillRegions. Qed.

(** One step of the loop over the regions of a trigger. *)
Lemma projectTrigger_cons (projectId : string) (t : CloudFunctionTrigger)
    (r : string) (rs : list string) (m m' : RegionMap) :
  projectTrigger projectId t (r :: rs) m = Return m' →
  ∃ m1, RegionMapOps.push m r (regionalCopy projectId t r) = Return m1 ∧
        projectTrigger projectId t rs m1 = Return m'.
Proof.
  unfold projectTrigger. cbn [forOf].
  destruct (RegionMapOps.push m r _) as [m1|]; [|done]. eauto.
Qed.

Lemma In_occurrences (r : string) (rs : list string) :
  0 < occurrences r rs ↔ In r rs.
Proof.
  unfold occurrences. induction rs as [|r0 rs IH]; simpl; [lia|].
  destruct (String.eqb r r0) eqn:Hr; simpl.
  - apply String.eqb_eq in Hr as ->. split; [by left | lia].
  - apply String.eqb_neq in Hr. rewrite IH. split; [by right|].
    intros [->|?]; done.
Qed.

Lemma repeat_filter (projectId : string) (t : CloudFunctionTrigger) (r : string)
    (rs : list string) :
  repeat (projection projectId t r) (occurrences r rs) =
  List.map (projection projectId t) (List.filter (String.eqb r) rs).
Proof.
  unfold occurrences. induction rs as [|r0 rs IH]; simpl; [done|].
  destruct (String.eqb r r0) eqn:Hr; simpl; [|done].
  apply String.eqb_eq in Hr as <-. by rewrite IH.
Qed.

Lemma projectTrigger_projected (projectId : string) (t : CloudFunctionTrigger)
    (rs : list string) (m m' : RegionMap) :
  projectTrigger projectId t rs m = Return m' → projected projectId t rs m m'.
Proof.
  revert m. induction rs as [|r0 rs IH]; intros m Hrun.
  { injection Hrun as <-. split; simpl; try done; intros; by rewrite app_nil_r. }
  apply projectTrigger_cons in Hrun as (m1 & Hpush & Hrun).
  destruct (IH _ Hrun) as []. clear IH Hrun. split.
  - intros r. rewrite pj_records0, (recordsOf_push _ _ _ _ _ Hpush), <- app_assoc.
    f_equal. unfold occurrences. simpl. rewrite (String.eqb_sym r r0).
    destruct (String.eqb r0 r) eqn:Hr; [|reflexivity].
    apply String.eqb_eq in Hr as ->. reflexivity.
  - intros Hm. by apply pj_populated0, (populated_push _ _ _ _ Hpush).
  - intros Hm. by apply pj_keys0, (NoDup_keys_push _ _ _ _ Hpush).
  - rewrite pj_flatten0, (flattenRegionMap_push _ _ _ _ Hpush). simpl.
    by rewrite <- app_assoc.
  - intros Hm. destruct (ordinaryKeys_push _ _ _ _ Hpush Hm) as [Hm1 Hr0].
    destruct (pj_ordinary0 Hm1) as [Hm' Hrs]. split; [done|].
    simpl. unfold ordinary at 1. by rewrite Hr0.
Qed.

Lemma projectTrigger_ordinary (projectId : string) (t : CloudFunctionTrigger)
    (rs : list string) (m : RegionMap) :
  forallb ordinary rs = true → ∃ m', projectTrigger projectId t rs m = Return m'.
Proof.
  revert m. induction rs as [|r0 rs IH]; intros m Hall; simpl in Hall.
  { by exists m. }
  apply andb_true_iff in Hall as [Hr0%negb_true_iff Hrs].
  unfold projectTrigger. cbn [forOf].
  destruct (push_ordinary m r0 (regionalCopy projectId t r0) Hr0) as [m1 ->].
  apply (IH m1 Hrs).
Qed.

Lemma projectTrigger_inherited (projectId : string) (t : CloudFunctionTrigger)
    (rs : list string) (m : RegionMap) :
  ordinaryKeys m → forallb ordinary rs = false →
  projectTrigger projectId t rs m =
  Throw (TypeError "regionMap[region].push is not a function").
Proof.
  revert m. induction rs as [|r0 rs IH]; intros m Hm Hall; simpl in Hall; [done|].
  unfold projectTrigger. cbn [forOf].
  destruct (ordinary r0) eqn:Hr0; simpl in Hall.
  - apply negb_true_iff in Hr0.
    destruct (push_ordinary m r0 (regionalCopy projectId t r0) Hr0) as [m1 Hpush].
    rewrite Hpush. simpl. apply IH; [|done].
    by apply (ordinaryKeys_push _ _ _ _ Hpush).
  - apply negb_false_iff in Hr0. by rewrite push_inherited.
Qed.

(** One step of the loop over the triggers. *)
Lemma mapTriggers_cons (projectId : string) (t : CloudFunctionTrigger)
    (ts ts' : list CloudFunctionTrigger) (m m' : RegionMap) :
  mapTriggers projectId (t :: ts) m = (ts', Return m') →
  ∃ m1 rest',
    projectTrigger projectId (fillRegions t) (effectiveRegions t) m = Return m1 ∧
    mapTriggers projectId ts m1 = (rest', Return m') ∧
    ts' = fillRegions t :: rest'.
Proof.
  cbn [mapTriggers]. rewrite regions_fillRegions. simpl.
  destruct (projectTrigger _ _ _ m) as [m1|]; [|done].
  destruct (mapTriggers projectId ts m1) as [rest' outcome] eqn:E.
  intros [= <- ->]. eauto.
Qed.

Lemma mapTriggers_mapped (projectId : string) (ts ts' : list CloudFunctionTrigger)
    (m m' : RegionMap) :
  mapTriggers projectId ts m = (ts', Return m') → mapped projectId ts ts' m m'.
Proof.
  revert ts' m. induction ts as [|t ts IH]; intros ts' m Hrun.
  { injection Hrun as <- <-. split; simpl; try done; intros; by rewrite app_nil_r. }
  apply mapTriggers_cons in Hrun as (m1 & rest' & Hproj & Hrun & ->).
  apply projectTrigger_projected in Hproj as [].
  destruct (IH _ _ Hrun) as []. clear IH Hrun. split.
  - simpl. by rewrite mp_input0.
  - intros r. rewrite mp_records0, pj_records0. simpl.
    by rewrite regionalCopy_fillRegions, <- app_assoc.
  - auto.
  - auto.
  - rewrite mp_flatten0, pj_flatten0. simpl. rewrite <- app_assoc.
    apply Permutation_app_head, Permutation_app; [|done].
    erewrite List.map_ext; [done|]. intros r. apply regionalCopy_fillRegions.
  - intros Hm. destruct (pj_ordinary0 Hm) as [Hm1 Hrs].
    destruct (mp_ordinary0 Hm1) as [Hm' Hts]. split; [done|].
    simpl. by rewrite forallb_app, Hrs, Hts.
Qed.

Lemma createFunctionsByRegionMap_mapped (projectId : string)
    (ts ts' : list CloudFunctionTrigger) (m : RegionMap) :
  createFunctionsByRegionMap projectId ts = (ts', Return m) →
  mapped projectId ts ts' [] m ∧ populated m ∧ NoDup (List.map fst m).
Proof.
  intros Hrun%mapTriggers_mapped. split; [done|]. destruct Hrun.
  split; [apply mp_populated0 | apply mp_keys0]; constructor.
Qed.

(** ** The mapper as a whole *)

(** C1, as the mapper has it.  In the map a call returns, what is filed
    under a region is, definition after definition, one projection for each
    occurrence of the region in the effective region list: the [regions]
    field whenever it is present, the empty list included, and
    [us-central1] alone when it is absent.  A definition whose [regions] is
    the empty list yields no record. *)
Theorem regions_effective (projectId : string) (ts ts' : list CloudFunctionTrigger)
    (m : RegionMap) (r : string) :
  createFunctionsByRegionMap projectId ts = (ts', Return m) →
  RegionMapOps.get m r =
    match
      flat_map (λ t, List.map (projection projectId t)
                       (List.filter (String.eqb r) (effectiveRegions t))) ts
    with
    | [] => None
    | l => Some l
    end ∧
  ∀ t, createFunctionsByRegionMap projectId [set_regions (Some []) t] =
       ([set_regions (Some []) t], Return []).
Proof.
  intros ([] & Hpop & _)%createFunctionsByRegionMap_mapped.
  split; [|done].
  rewrite (populated_get _ _ Hpop), mp_records0. simpl.
  erewrite flat_map_ext; [done|]. intros t. apply repeat_filter.
Qed.

(** C2, as the mapper has it.  After a call that returns, the list has the
    same definitions in the same order, each with all its fields as before
    except [regions], which holds the effective region list: the field is
    as it was when it was present and [["us-central1"]] when it was absent. *)
Theorem input_after_call (projectId : string) (ts ts' : list CloudFunctionTrigger)
    (m : RegionMap) :
  createFunctionsByRegionMap projectId ts = (ts', Return m) →
  Forall2 (λ t t', set_regions (regions t) t' = t ∧
                   regions t' = Some (effectiveRegions t))
    ts ts'.
Proof.
  intros ([] & _)%createFunctionsByRegionMap_mapped. subst ts'.
  clear. induction ts as [|t ts IH]; simpl; constructor; [|done].
  split; [|apply regions_fillRegions].
  destruct t as [? ? ? ? ? ? ? ? ? ? ? ? ? ? ? ? ? ? rs].
  unfold fillRegions. simpl. by destruct rs.
Qed.

(** C10.  In the map a call returns, a region that occurs several times in
    the region list of a definition has received one record for each
    occurrence, all of them the same projection and so of the same qualified
    name; the names of the projections of one definition differ exactly
    when the regions do. *)
Theorem duplicates_kept (projectId : string) (ts ts' : list CloudFunctionTrigger)
    (m : RegionMap) (r : string) :
  createFunctionsByRegionMap projectId ts = (ts', Return m) →
  recordsOf m r =
    flat_map (λ t, repeat (projection projectId t r)
                     (occurrences r (effectiveRegions t))) ts ∧
  ∀ t r1 r2,
    name (projection projectId t r1) = name (projection projectId t r2) ↔ r1 = r2.
Proof.
  intros ([] & _)%createFunctionsByRegionMap_mapped. split.
  - by rewrite mp_records0.
  - intros t r1 r2. simpl. split; [apply qualifiedName_inj_region | by intros ->].
Qed.

(** ** Further properties of the mapper *)

(** X1.  The records of a region are projections, onto that region, of input
    definitions that name the region: they have no [regions] field, their
    name is the qualified name, and every other field is the definition's. *)
Theorem mapper_records (projectId : string) (ts ts' : list CloudFunctionTrigger)
    (m : RegionMap) (r : string) (rec : CloudFunctionTrigger) :
  createFunctionsByRegionMap projectId ts = (ts', Return m) →
  In rec (recordsOf m r) →
  regions rec = None ∧
  ∃ t, In t ts ∧ In r (effectiveRegions t) ∧
       name rec = qualifiedName projectId r (name t) ∧
       set_name (name t) rec = set_regions None t.
Proof.
  intros ([] & _)%createFunctionsByRegionMap_mapped.
  rewrite mp_records0. simpl.
  intros (t & Ht & Hrec)%in_flat_map.
  pose proof (repeat_spec _ _ _ Hrec) as ->.
  split; [done|]. exists t. repeat split; try done.
  apply In_occurrences. destruct (occurrences r (effectiveRegions t)); [done | lia].
Qed.

(** X2.  The object a call returns has each region once, every region with
    at least one record, and its regions are exactly those that some
    definition names in its effective region list. *)
Theorem mapper_keys (projectId : string) (ts ts' : list CloudFunctionTrigger)
    (m : RegionMap) :
  createFunctionsByRegionMap projectId ts = (ts', Return m) →
  NoDup (List.map fst m) ∧
  Forall (λ e : string * list CloudFunctionTrigger, e.2 ≠ []) m ∧
  ∀ r, In r (List.map fst m) ↔ ∃ t, In t ts ∧ In r (effectiveRegions t).
Proof.
  intros ([] & Hpop & Hnodup)%createFunctionsByRegionMap_mapped.
  split; [done|]. split; [done|].
  intros r. rewrite In_keys, (populated_get _ _ Hpop), mp_records0. simpl.
  clear. destruct (flat_map _ ts) as [|rec recs] eqn:Hflat; simpl.
  - split; [by intros [? ?]|]. intros (t & Ht & Hr).
    apply In_occurrences in Hr.
    assert (In (projection projectId t r) (@nil CloudFunctionTrigger)) as [].
    rewrite <- Hflat. apply in_flat_map. exists t. split; [done|].
    destruct (occurrences r (effectiveRegions t)); [lia | by left].
  - split; [|eauto]. intros _.
    assert (In rec (flat_map
              (λ t, repeat (projection projectId t r)
                      (occurrences r (effectiveRegions t))) ts)) as Hin.
    { rewrite Hflat. by left. }
    apply in_flat_map in Hin as (t & Ht & Hrec). exists t. split; [done|].
    apply In_occurrences. destruct (occurrences r (effectiveRegions t)); [done | lia].
Qed.

(** X3.  Flattening the map a call returns gives, up to the grouping by
    region, one projection for each definition and each entry of its
    effective region list; so there are as many records as such entries. *)
Theorem flatten_mapper (projectId : string) (ts ts' : list CloudFunctionTrigger)
    (m : RegionMap) :
  createFunctionsByRegionMap projectId ts = (ts', Return m) →
  flattenRegionMap m ≡ₚ
    flat_map (λ t, List.map (projection projectId t) (effectiveRegions t)) ts ∧
  length (flattenRegionMap m) = length (flat_map effectiveRegions ts).
Proof.
  intros ([] & _)%createFunctionsByRegionMap_mapped. simpl in mp_flatten0.
  split; [done|]. rewrite mp_flatten0. clear.
  induction ts as [|t ts IH]; simpl; [done|].
  by rewrite !length_app, List.length_map, IH.
Qed.

Lemma mapTriggers_again (projectId : string) (ts : list CloudFunctionTrigger)
    (m : RegionMap) :
  mapTriggers projectId (mapTriggers projectId ts m).1 m = mapTriggers projectId ts m.
Proof.
  revert m. induction ts as [|t ts IH]; intros m; [done|].
  cbn [mapTriggers].
  destruct (projectTrigger projectId (fillRegions t) _ m) as [m1|e] eqn:Hproj.
  - destruct (mapTriggers projectId ts m1) as [rest' outcome] eqn:E.
    cbn [fst mapTriggers]. rewrite fillRegions_idemp, Hproj.
    specialize (IH m1). rewrite E in IH. simpl in IH. by rewrite IH.
  - cbn [fst mapTriggers]. by rewrite fillRegions_idemp, Hproj.
Qed.

(** X4.  A second call on the list as the first call left it returns the same
    map and leaves the list as it is: only the first call writes to its
    input. *)
Theorem mapper_second_call (projectId : string) (ts : list CloudFunctionTrigger) :
  createFunctionsByRegionMap projectId (createFunctionsByRegionMap projectId ts).1 =
  createFunctionsByRegionMap projectId ts.
Proof. apply mapTriggers_again. Qed.

Lemma NoDup_projection_names (projectId : string) (t : CloudFunctionTrigger)
    (rs : list string) :
  NoDup rs → NoDup (List.map name (List.map (projection projectId t) rs)).
Proof.
  induction 1 as [|r rs Hr Hrs IH]; simpl; constructor; [|done].
  intros Hin. apply Hr.
  apply list_elem_of_In in Hin. rewrite List.map_map in Hin.
  apply in_map_iff in Hin as (r' & Heq & Hr').
  simpl in Heq. apply qualifiedName_inj_region in Heq as ->.
  by apply list_elem_of_In.
Qed.

(** X5.  A definition whose effective region list has no repetition yields,
    in the map a call returns, one record for each of its regions, under
    pairwise distinct names. *)
Theorem distinct_regions_distinct_names (projectId : string)
    (t : CloudFunctionTrigger) (ts' : list CloudFunctionTrigger) (m : RegionMap) :
  NoDup (effectiveRegions t) →
  createFunctionsByRegionMap projectId [t] = (ts', Return m) →
  NoDup (List.map name (flattenRegionMap m)) ∧
  length (flattenRegionMap m) = length (effectiveRegions t).
Proof.
  intros Hnodup ([] & _)%createFunctionsByRegionMap_mapped.
  simpl in mp_flatten0. rewrite app_nil_r in mp_flatten0.
  split.
  - rewrite (Permutation_map name mp_flatten0). by apply NoDup_projection_names.
  - by rewrite mp_flatten0, List.length_map.
Qed.

(** ** Completion of the mapper *)

Lemma mapTriggers_completion (projectId : string) (ts : list CloudFunctionTrigger)
    (m : RegionMap) :
  ordinaryKeys m →
  if forallb ordinary (flat_map effectiveRegions ts)
  then ∃ m', (mapTriggers projectId ts m).2 = Return m'
  else (mapTriggers projectId ts m).2 =
       Throw (TypeError "regionMap[region].push is not a function").
Proof.
  revert m. induction ts as [|t ts IH]; intros m Hm; simpl; [eauto|].
  rewrite forallb_app, regions_fillRegions. simpl.
  destruct (forallb ordinary (effectiveRegions t)) eqn:Ht; simpl.
  - destruct (projectTrigger_ordinary projectId (fillRegions t) _ m Ht)
      as [m1 Hproj].
    rewrite Hproj.
    apply projectTrigger_projected in Hproj as [].
    destruct (pj_ordinary0 Hm) as [Hm1 _].
    specialize (IH m1 Hm1).
    by destruct (mapTriggers projectId ts m1) as [rest' outcome].
  - by rewrite projectTrigger_inherited.
Qed.

(** X17.  A call returns a map exactly when no region of any effective
    region list is the name of a member of [Object.prototype]; otherwise it
    ends with the [TypeError] of the [push] at line 76. *)
Theorem mapper_completion (projectId : string) (ts : list CloudFunctionTrigger) :
  if forallb ordinary (flat_map effectiveRegions ts)
  then ∃ m, (createFunctionsByRegionMap projectId ts).2 = Return m
  else (createFunctionsByRegionMap projectId ts).2 =
       Throw (TypeError "regionMap[region].push is not a function").
Proof. apply mapTriggers_completion. by intros k []. Qed.

Lemma mapTriggers_thrown (projectId : string) (ts ts' : list CloudFunctionTrigger)
    (m : RegionMap) (e : exn) :
  mapTriggers projectId ts m = (ts', Throw e) →
  ∃ pre t post,
    ts = pre ++ t :: post ∧
    ts' = List.map fillRegions pre ++ fillRegions t :: post ∧
    ∃ m1, projectTrigger projectId (fillRegions t) (effectiveRegions t) m1 = Throw e.
Proof.
  revert ts' m. induction ts as [|t ts IH]; intros ts' m; [done|].
  cbn [mapTriggers]. rewrite regions_fillRegions. simpl.
  destruct (projectTrigger _ _ _ m) as [m1|e'] eqn:Hproj.
  - destruct (mapTriggers projectId ts m1) as [rest' outcome] eqn:E.
    intros [= <- ->].
    destruct (IH _ _ E) as (pre & t' & post & -> & -> & Hthrow).
    by exists (t :: pre), t', post.
  - intros [= <- <-]. exists [], t, ts. eauto.
Qed.

Lemma forallb_false {A : Type} (f : A → bool) (l : list A) :
  forallb f l = false → ∃ x, In x l ∧ f x = false.
Proof.
  induction l as [|x l IH]; simpl; [done|].
  destruct (f x) eqn:Hx; simpl.
  - intros (y & Hy & Hfy)%IH. exists y. split; [by right | done].
  - intros _. exists x. split; [by left | done].
Qed.

(** X18.  When a call ends with an exception, the list is left with the
    definitions before the failing one and the failing one itself through
    line 58, and the definitions after it as they were; the failing one
    names a member of [Object.prototype] among its effective regions. *)
Theorem mapper_thrown (projectId : string) (ts ts' : list CloudFunctionTrigger)
    (e : exn) :
  createFunctionsByRegionMap projectId ts = (ts', Throw e) →
  ∃ pre t post,
    ts = pre ++ t :: post ∧
    ts' = List.map fillRegions pre ++ fillRegions t :: post ∧
    ∃ r, In r (effectiveRegions t) ∧ RegionMapOps.inherited r = true.
Proof.
  intros (pre & t & post & -> & -> & m1 & Hthrow)%mapTriggers_thrown.
  exists pre, t, post. repeat split.
  destruct (forallb ordinary (effectiveRegions t)) eqn:Hall.
  - destruct (projectTrigger_ordinary projectId (fillRegions t) _ m1 Hall)
      as [m' Hproj]. congruence.
  - apply forallb_false in Hall as (r & Hr & Hord).
    exists r. split; [done|]. unfold ordinary in Hord.
    by apply negb_false_iff in Hord.
Qed.

(** * Properties of the planner *)

(** ** Loops *)

Lemma forOf_snoc {A S : Type} (body : A → S → completion S) (l : list A) (x : A)
    (s : S) :
  forOf body (l ++ [x]) s = let* s' := forOf body l s in body x s'.
Proof.
  revert s. induction l as [|y l IH]; intros s; simpl.
  - by destruct (body x s).
  - destruct (body y s); simpl; [apply IH | reflexivity].
Qed.

(** Invariant rule: a property of the processed prefix and the state that
    holds before the loop and is kept by every iteration that completes
    holds of the whole list when the loop completes. *)
Lemma forOf_ind {A S : Type} (body : A → S → completion S)
    (P : list A → S → Prop) (l : list A) (s0 s : S) :
  P [] s0 →
  (∀ pre x s1 s2, P pre s1 → In x l → body x s1 = Return s2 → P (pre ++ [x]) s2) →
  forOf body l s0 = Return s →
  P l s.
Proof.
  intros H0 Hstep.
  assert (∀ suf pre s1, P pre s1 → (∀ x, In x suf → In x l) →
            forOf body suf s1 = Return s → P (pre ++ suf) s) as Hgen.
  { induction suf as [|x suf IH]; intros pre s1 Hpre Hsub Hrun; simpl in Hrun.
    - injection Hrun as <-. by rewrite app_nil_r.
    - destruct (body x s1) as [s2|e] eqn:Hx; simpl in Hrun; [|discriminate].
      replace (pre ++ x :: suf) with ((pre ++ [x]) ++ suf)
        by (by rewrite <- app_assoc).
      apply (IH _ s2); [|intros y Hy; apply Hsub; by right|done].
      apply (Hstep pre x s1 s2); [done| |done]. apply Hsub. by left. }
  intros Hrun. apply (Hgen l [] s0); auto.
Qed.

(** A loop whose iterations complete or throw independently of the state
    completes exactly when every iteration does, and throws otherwise. *)
Lemma forOf_completes {A S : Type} (body : A → S → completion S)
    (good : A → bool) (l : list A) (s0 : S) :
  (∀ x s, In x l → good x = true → ∃ s', body x s = Return s') →
  forallb good l = true → ∃ s, forOf body l s0 = Return s.
Proof.
  revert s0. induction l as [|x l IH]; intros s0 Hgood Hall; simpl in *.
  - eauto.
  - apply andb_true_iff in Hall as [Hx Hl].
    destruct (Hgood x s0) as [s1 ->]; auto. simpl.
    apply IH; auto.
Qed.

Lemma forOf_throws {A S : Type} (body : A → S → completion S)
    (good : A → bool) (e : exn) (l : list A) (s0 : S) :
  (∀ x s, In x l → good x = true → ∃ s', body x s = Return s') →
  (∀ x s, In x l → good x = false → body x s = Throw e) →
  forallb good l = false → forOf body l s0 = Throw e.
Proof.
  revert s0. induction l as [|x l IH]; intros s0 Hgood Hbad Hall; simpl in *.
  - discriminate.
  - destruct (good x) eqn:Hx; simpl in Hall.
    + destruct (Hgood x s0) as [s1 ->]; auto. simpl. apply IH; auto.
    + rewrite (Hbad x s0); auto.
Qed.

(** ** One iteration of the planner *)

Section PlannerFacts.

Context {C : Collaborators}.
Variable filters : list (list string).

Lemma name_planned fn : name (planned fn) = name fn.
Proof. unfold planned. by destruct (schedule fn), (eventTrigger fn). Qed.

Lemma schedule_planned fn : schedule (planned fn) = schedule fn.
Proof.
  unfold planned. by destruct (schedule fn) eqn:E, (eventTrigger fn); simpl; rewrite ?E.
Qed.

Lemma find_none_filter {A : Type} (p : A → bool) (l : list A) :
  List.find p l = None → List.filter (λ x, negb (p x)) l = l.
Proof.
  induction l as [|x l IH]; simpl; [done|].
  destruct (p x); [done|]. simpl. intros H. by rewrite IH.
Qed.

Lemma planFunction_skip fn s : selected filters fn = false → planFunction filters fn s = Return s.
Proof.
  unfold selected, planFunction. intros ->.
  by destruct s as [[d ex] rd].
Qed.

Lemma planFunction_malformed fn s :
  malformed filters fn = true →
  planFunction filters fn s =
  Throw (TypeError "Cannot set property 'resource' of undefined").
Proof.
  unfold malformed, selected, planFunction, setTopic.
  destruct s as [[d ex] rd].
  destruct (functionMatchesAnyGroup _ _), (schedule fn), (eventTrigger fn);
    simpl; done.
Qed.

Lemma planFunction_selected fn d ex rd :
  selected filters fn = true → malformed filters fn = false →
  planFunction filters fn (mkState d ex, rd) =
  Return (mkState (dropSchedule fn ex d) (unmatched fn ex), fileFunction fn ex rd).
Proof.
  unfold malformed, selected. intros Hsel Hmal. rewrite Hsel in Hmal.
  unfold planFunction, setTopic, dropSchedule, fileFunction, planned,
    matching, unmatched.
  rewrite Hsel.
  destruct (List.find _ ex) as [e|] eqn:Hfind.
  - apply find_some in Hfind as [_ Hname]. apply String.eqb_eq in Hname.
    destruct (scheduledLabel (Some e)), (schedule fn), (eventTrigger fn);
      simpl in *; try done; by rewrite ?Hname.
  - apply find_none_filter in Hfind.
    destruct (schedule fn), (eventTrigger fn); simpl in *; try done;
      by rewrite Hfind.
Qed.

Lemma planFunction_inv fn d1 ex1 rd1 s2 :
  planFunction filters fn (mkState d1 ex1, rd1) = Return s2 →
  malformed filters fn = false ∧
  s2 = if selected filters fn
       then (mkState (dropSchedule fn ex1 d1) (unmatched fn ex1),
             fileFunction fn ex1 rd1)
       else (mkState d1 ex1, rd1).
Proof.
  intros Hrun. destruct (malformed filters fn) eqn:Hmal.
  { by rewrite planFunction_malformed in Hrun. }
  split; [done|]. destruct (selected filters fn) eqn:Hsel.
  - rewrite planFunction_selected in Hrun by done. by injection Hrun.
  - rewrite planFunction_skip in Hrun by done. by injection Hrun.
Qed.

Lemma functionsToCreate_fileFunction fn ex rd :
  functionsToCreate (fileFunction fn ex rd) =
  functionsToCreate rd ++ (if present (matching fn ex) then [] else [planned fn]).
Proof.
  unfold fileFunction.
  destruct (present (matching fn ex)), (present (schedule fn)); simpl;
    by rewrite ?app_nil_r.
Qed.

Lemma functionsToUpdate_fileFunction fn ex rd :
  functionsToUpdate (fileFunction fn ex rd) =
  functionsToUpdate rd ++ (if present (matching fn ex) then [planned fn] else []).
Proof.
  unfold fileFunction.
  destruct (present (matching fn ex)), (present (schedule fn)); simpl;
    by rewrite ?app_nil_r.
Qed.

Lemma schedulesToCreateOrUpdate_fileFunction fn ex rd :
  schedulesToCreateOrUpdate (fileFunction fn ex rd) =
  schedulesToCreateOrUpdate rd ++ (if present (schedule fn) then [planned fn] else []).
Proof.
  unfold fileFunction.
  destruct (present (matching fn ex)), (present (schedule fn)); simpl;
    by rewrite ?app_nil_r.
Qed.

Lemma region_fileFunction fn ex rd : region (fileFunction fn ex rd) = region rd.
Proof.
  unfold fileFunction.
  by destruct (present (matching fn ex)), (present (schedule fn)).
Qed.

Lemma regionalDeployments_dropSchedule fn ex d :
  regionalDeployments (dropSchedule fn ex d) = regionalDeployments d.
Proof. unfold dropSchedule. by destruct (_ && _). Qed.

Lemma functionsToDelete_dropSchedule fn ex d :
  functionsToDelete (dropSchedule fn ex d) = functionsToDelete d.
Proof. unfold dropSchedule. by destruct (_ && _). Qed.

Lemma schedulesToDelete_dropSchedule fn ex d :
  schedulesToDelete (dropSchedule fn ex d) =
  schedulesToDelete d ++
  (if negb (present (schedule fn)) && scheduledLabel (matching fn ex)
   then [name fn] else []).
Proof. unfold dropSchedule. destruct (_ && _); simpl; by rewrite ?app_nil_r. Qed.

Lemma In_unmatched fn ex e :
  In e (unmatched fn ex) ↔ In e ex ∧ name e ≠ name fn.
Proof.
  unfold unmatched. rewrite filter_In, negb_true_iff.
  by rewrite <- String.eqb_neq.
Qed.

Lemma matching_Some fn ex e :
  matching fn ex = Some e → In e ex ∧ name e = name fn.
Proof.
  unfold matching. intros [Hin Hname]%find_some.
  by apply String.eqb_eq in Hname.
Qed.

Lemma matching_None fn ex :
  matching fn ex = None → ∀ e, In e ex → name e ≠ name fn.
Proof.
  unfold matching. intros Hnone e Hin.
  apply String.eqb_neq. by apply (find_none _ _ Hnone).
Qed.

(** ** The loop over the functions of one region *)

Lemma regionPlanned_nil d0 ex0 rd0 : regionPlanned filters [] d0 ex0 rd0 d0 ex0 rd0.
Proof.
  split; simpl; try done; try tauto; by rewrite app_nil_r.
Qed.

Lemma regionPlanned_skip pre x d0 ex0 rd0 d ex rd :
  selected filters x = false → malformed filters x = false →
  regionPlanned filters pre d0 ex0 rd0 d ex rd →
  regionPlanned filters (pre ++ [x]) d0 ex0 rd0 d ex rd.
Proof.
  intros Hsel Hmal [].
  split; try done.
  - intros e. rewrite rp_existing0. split; intros [He Hpre]; split; try done.
    + intros fn [Hfn| [<-|[]]]%in_app_iff Hs; [eauto | congruence].
    + intros fn Hfn. apply Hpre, in_app_iff. by left.
  - intros n Hn. destruct (rp_schedDel0 n Hn) as [?|(fn & Hfn & ?)]; [by left|].
    right. exists fn. split; [apply in_app_iff; by left | done].
  - rewrite List.filter_app. simpl. rewrite Hsel. by rewrite app_nil_r.
  - rewrite List.filter_app. simpl. rewrite Hsel. simpl. by rewrite app_nil_r.
  - intros fn [Hfn| [<-|[]]]%in_app_iff Hs; [eauto | congruence].
  - intros fn [Hfn| [<-|[]]]%in_app_iff; eauto.
Qed.

Lemma regionPlanned_step pre x d0 ex0 rd0 d ex rd :
  selected filters x = true → malformed filters x = false →
  regionPlanned filters pre d0 ex0 rd0 d ex rd →
  regionPlanned filters (pre ++ [x]) d0 ex0 rd0
    (dropSchedule x ex d) (unmatched x ex) (fileFunction x ex rd).
Proof.
  intros Hsel Hmal [].
  split.
  - intros e. rewrite In_unmatched, rp_existing0.
    split.
    + intros [[He Hpre] Hx]. split; [done|].
      intros fn [Hfn| [<-|[]]]%in_app_iff Hs; [eauto | congruence].
    + intros [He Hpre]. split; [split; [done|] |].
      * intros fn Hfn. apply Hpre, in_app_iff. by left.
      * intros Heq. apply (Hpre x); [|done..].
        apply in_app_iff. right. by left.
  - by rewrite regionalDeployments_dropSchedule.
  - by rewrite functionsToDelete_dropSchedule.
  - intros n. rewrite schedulesToDelete_dropSchedule.
    intros [Hn|Hn]%in_app_iff.
    + destruct (rp_schedDel0 n Hn) as [?|(fn & Hfn & ?)]; [by left|].
      right. exists fn. split; [apply in_app_iff; by left | done].
    + destruct (schedule x) eqn:Hsched; simpl in Hn; [done|].
      destruct (scheduledLabel _); simpl in Hn; [|done].
      destruct Hn as [<-|[]]. right. exists x.
      split; [apply in_app_iff; right; by left | done].
  - by rewrite region_fileFunction.
  - rewrite functionsToCreate_fileFunction, functionsToUpdate_fileFunction.
    rewrite List.filter_app. simpl. rewrite Hsel.
    rewrite List.map_app. simpl.
    rewrite (app_assoc _ (List.map planned _) [planned x]).
    rewrite <- rp_files0.
    destruct (present (matching x ex)).
    + rewrite (app_nil_r (functionsToCreate rd)). by rewrite app_assoc.
    + rewrite (app_nil_r (functionsToUpdate rd)).
      rewrite <- !app_assoc. apply Permutation_app_head.
      apply Permutation_app_comm.
  - rewrite schedulesToCreateOrUpdate_fileFunction, rp_sched0.
    rewrite List.filter_app. simpl. rewrite Hsel. simpl.
    rewrite List.map_app, <- app_assoc.
    by destruct (present (schedule x)).
  - intros f. rewrite functionsToUpdate_fileFunction.
    intros [Hf|Hf]%in_app_iff; [by apply rp_update0|].
    destruct (matching x ex) as [e|] eqn:Hm; simpl in Hf; [|done].
    destruct Hf as [<-|[]].
    apply matching_Some in Hm as [He Hname].
    right. exists e. rewrite name_planned.
    split; [by apply rp_existing0 in He as [He _] | done].
  - intros fn Hfn Hs Hfresh. rewrite functionsToCreate_fileFunction.
    apply in_app_iff.
    apply in_app_iff in Hfn as [Hfn| [<-|[]]]; [left; by apply rp_create0|].
    right. destruct (matching x ex) as [e|] eqn:Hm; simpl; [|by left].
    apply matching_Some in Hm as [He Hname].
    apply rp_existing0 in He as [He _]. by destruct (Hfresh e He).
  - intros fn [Hfn| [<-|[]]]%in_app_iff; eauto.
Qed.

Lemma planFunctions_planned fns d0 ex0 rd0 d ex rd :
  forOf (planFunction filters) fns (mkState d0 ex0, rd0) = Return (mkState d ex, rd) →
  regionPlanned filters fns d0 ex0 rd0 d ex rd.
Proof.
  intros Hrun.
  apply (forOf_ind (planFunction filters)
           (λ pre s, regionPlanned filters pre d0 ex0 rd0
                       (deployment s.1) (existingFunctions s.1) s.2)
           fns (mkState d0 ex0, rd0) (mkState d ex, rd)); [|clear Hrun|done].
  { apply regionPlanned_nil. }
  intros pre x [[d1 ex1] rd1] s2 Hpre _ Hstep. simpl in Hpre.
  apply planFunction_inv in Hstep as [Hmal ->].
  destruct (selected filters x) eqn:Hsel; simpl.
  - by apply regionPlanned_step.
  - by apply regionPlanned_skip.
Qed.

(** ** The loop over the regions *)

Lemma flattenRegionMap_snoc (m : RegionMap) (r : string)
    (fns : list CloudFunctionTrigger) :
  flattenRegionMap (m ++ [(r, fns)]) = flattenRegionMap m ++ fns.
Proof.
  unfold flattenRegionMap. rewrite List.map_app, concat_app. simpl.
  by rewrite app_nil_r.
Qed.

Lemma regionsPlanned_nil ex0 : regionsPlanned filters [] ex0 (mkPlan [] [] []) ex0.
Proof.
  split; simpl; try done.
  intros e. split; [intros He; split; [done|tauto] | tauto].
Qed.

Lemma regionsPlanned_step pre r fns ex0 d1 ex1 d2 ex2 rd :
  regionsPlanned filters pre ex0 d1 ex1 →
  regionPlanned filters fns d1 ex1 (mkRegional r None None [] [] []) d2 ex2 rd →
  regionsPlanned filters (pre ++ [(r, fns)]) ex0 (push_regionalDeployment rd d2) ex2.
Proof.
  intros [] [].
  split; simpl; rewrite ?flattenRegionMap_snoc.
  - intros e. rewrite rp_existing0, rs_existing0.
    split.
    + intros [[He Hpre] Hfns]. split; [done|].
      intros fn [Hfn|Hfn]%in_app_iff; eauto.
    + intros [He Hall].
      split; [split; [done|] |]; intros fn Hfn; apply Hall, in_app_iff; auto.
  - rewrite rp_regionals0. apply Forall2_app; [done|].
    constructor; [|constructor].
    split; simpl in *.
    + done.
    + by rewrite rp_files0.
    + by rewrite rp_sched0.
    + intros f Hf. destruct (rp_update0 f Hf) as [[]|(e & He & Hname)].
      exists e. split; [by apply rs_existing0 in He as [He _] | done].
    + intros fn Hfn Hsel Hfresh. apply rp_create0; [done..|].
      intros e He. apply Hfresh. by apply rs_existing0 in He as [He _].
  - by rewrite rp_deleted0.
  - intros n Hn. destruct (rp_schedDel0 n Hn) as [Hold|(fn & Hfn & Hrest)].
    + destruct (rs_schedDel0 n Hold) as (fn & Hfn & Hrest).
      exists fn. split; [apply in_app_iff; by left | done].
    + exists fn. split; [apply in_app_iff; by right | done].
  - intros fn [Hfn|Hfn]%in_app_iff; eauto.
Qed.

Lemma planRegions_planned m ex0 d ex :
  forOf (planRegion filters) m (mkState (mkPlan [] [] []) ex0) = Return (mkState d ex) →
  regionsPlanned filters m ex0 d ex.
Proof.
  intros Hrun.
  apply (forOf_ind (planRegion filters)
           (λ pre s, regionsPlanned filters pre ex0 (deployment s) (existingFunctions s))
           m (mkState (mkPlan [] [] []) ex0) (mkState d ex));
    [|clear Hrun|done].
  { apply regionsPlanned_nil. }
  intros pre [r fns] [d1 ex1] s2 Hpre _ Hstep. simpl in Hpre.
  unfold planRegion in Hstep.
  destruct (forOf _ fns _) as [[[d2 ex2] rd]|] eqn:Hfns; simpl in Hstep; [|done].
  injection Hstep as <-. simpl.
  apply planFunctions_planned in Hfns.
  by eapply regionsPlanned_step.
Qed.

(** ** The whole planner *)

Lemma regionalDeployments_deleteSchedules fns d :
  regionalDeployments (deleteSchedules fns d) = regionalDeployments d.
Proof.
  revert d. induction fns as [|fn fns IH]; intros d; simpl; [done|].
  rewrite IH. by destruct (scheduledLabel (Some fn)).
Qed.

Lemma functionsToDelete_deleteSchedules fns d :
  functionsToDelete (deleteSchedules fns d) = functionsToDelete d.
Proof.
  revert d. induction fns as [|fn fns IH]; intros d; simpl; [done|].
  rewrite IH. by destruct (scheduledLabel (Some fn)).
Qed.

Lemma schedulesToDelete_deleteSchedules fns d :
  schedulesToDelete (deleteSchedules fns d) =
  schedulesToDelete d ++
  List.map name (List.filter (λ fn, scheduledLabel (Some fn)) fns).
Proof.
  revert d. induction fns as [|fn fns IH]; intros d; simpl.
  - by rewrite app_nil_r.
  - rewrite IH. destruct (scheduledLabel (Some fn)); simpl; [|done].
    by rewrite <- app_assoc.
Qed.

Lemma In_deletable ex e :
  In e (deletable filters ex) ↔
  In e ex ∧ deploymentTool_check (labels e) = true ∧
  (filters = [] ∨ functionMatchesAnyGroup (name e) filters = true).
Proof.
  unfold deletable. rewrite !filter_In.
  destruct filters as [|g gs]; [tauto|].
  split; [tauto|]. intros (? & ? & [?|?]); [done|tauto].
Qed.

(** The plan returned by the planner, in terms of the state the loop over
    the regions ends in. *)
Lemma createDeploymentPlan_planned m ex0 plan :
  createDeploymentPlan m ex0 filters = Return plan →
  ∃ d ex,
    regionsPlanned filters m ex0 d ex ∧
    regionalDeployments plan = regionalDeployments d ∧
    functionsToDelete plan = List.map name (deletable filters ex) ∧
    schedulesToDelete plan =
      schedulesToDelete d ++
      List.map name (List.filter (λ fn, scheduledLabel (Some fn)) (deletable filters ex)).
Proof.
  unfold createDeploymentPlan. intros Hrun.
  destruct (forOf _ m _) as [[d ex]|] eqn:Hloop; simpl in Hrun; [|done].
  injection Hrun as <-. exists d, ex.
  split; [by apply planRegions_planned|].
  rewrite regionalDeployments_deleteSchedules,
    functionsToDelete_deleteSchedules, schedulesToDelete_deleteSchedules.
  by destruct d.
Qed.

Lemma In_flattenRegionMap (m : RegionMap) fn :
  In fn (flattenRegionMap m) ↔ ∃ r fns, In (r, fns) m ∧ In fn fns.
Proof.
  unfold flattenRegionMap. rewrite in_concat. split.
  - intros (fns & Hfns & Hfn). apply in_map_iff in Hfns as ([r fns'] & <- & Hin).
    by exists r, fns'.
  - intros (r & fns & Hin & Hfn). exists fns. split; [|done].
    apply in_map_iff. by exists (r, fns).
Qed.

Lemma Forall2_In_l {A B : Type} (R : A → B → Prop) (l : list A) (k : list B) x :
  Forall2 R l k → In x l → ∃ y, In y k ∧ R x y.
Proof.
  induction 1 as [|a b l k Hab _ IH]; intros Hin; [done|].
  destruct Hin as [<-|Hin].
  - exists b. split; [by left | done].
  - destruct (IH Hin) as (y & Hy & Hxy). exists y. split; [by right | done].
Qed.

Lemma Forall2_In_r {A B : Type} (R : A → B → Prop) (l : list A) (k : list B) y :
  Forall2 R l k → In y k → ∃ x, In x l ∧ R x y.
Proof.
  induction 1 as [|a b l k Hab _ IH]; intros Hin; [done|].
  destruct Hin as [<-|Hin].
  - exists a. split; [by left | done].
  - destruct (IH Hin) as (x & Hx & Hxy). exists x. split; [by right | done].
Qed.

(** A record filed for creation or update is the planned form of a
    selected function of the region the deployment was computed from. *)
Lemma filed_planned m ex0 d ex rd f :
  regionsPlanned filters m ex0 d ex →
  In rd (regionalDeployments d) →
  In f (functionsToCreate rd ++ functionsToUpdate rd) →
  ∃ fns fn, In (region rd, fns) m ∧ In fn fns ∧ selected filters fn = true ∧
            malformed filters fn = false ∧ f = planned fn.
Proof.
  intros [] Hrd Hf.
  destruct (Forall2_In_r _ _ _ _ rs_regionals0 Hrd) as ([r fns] & Hin & []).
  simpl in *. subst r.
  apply (Permutation_in _ rf_files0) in Hf.
  apply in_map_iff in Hf as (fn & <- & [Hfn Hsel]%filter_In).
  exists fns, fn. repeat split; try done.
  apply rs_wellformed0, In_flattenRegionMap. eauto.
Qed.

Lemma filedNames_selected m ex0 (rds : list RegionalDeployment) :
  Forall2 (regionFiled filters ex0) m rds →
  flat_map (λ rd, List.map name (functionsToCreate rd ++ functionsToUpdate rd)) rds
  ≡ₚ List.map name (List.filter (selected filters) (flattenRegionMap m)).
Proof.
  induction 1 as [|[r fns] rd m rds [] _ IH]; [done|].
  unfold flattenRegionMap in *. simpl in *.
  rewrite List.filter_app, (List.map_app name (List.filter (selected filters) fns)).
  apply Permutation_app; [|done].
  etrans; [apply Permutation_map, rf_files0|].
  rewrite List.map_map.
  erewrite List.map_ext; [done|]. intros fn. apply name_planned.
Qed.

Lemma planFunction_completes fn s :
  wellformed filters fn = true → ∃ s', planFunction filters fn s = Return s'.
Proof.
  unfold wellformed. intros Hwf%negb_true_iff. destruct s as [[d ex] rd].
  destruct (selected filters fn) eqn:Hsel.
  - rewrite planFunction_selected by done. eauto.
  - rewrite planFunction_skip by done. eauto.
Qed.

Lemma planRegion_completes r fns st :
  forallb (wellformed filters) fns = true → ∃ st', planRegion filters (r, fns) st = Return st'.
Proof.
  intros Hall. unfold planRegion.
  destruct (forOf_completes (planFunction filters) (wellformed filters) fns
              (st, mkRegional r None None [] [] [])) as [[[d ex] rd] ->];
    [intros; by apply planFunction_completes | done |].
  simpl. eauto.
Qed.

Lemma planRegion_throws r fns st :
  forallb (wellformed filters) fns = false →
  planRegion filters (r, fns) st =
  Throw (TypeError "Cannot set property 'resource' of undefined").
Proof.
  intros Hall. unfold planRegion.
  rewrite (forOf_throws (planFunction filters) (wellformed filters)
             (TypeError "Cannot set property 'resource' of undefined")); try done.
  - intros; by apply planFunction_completes.
  - intros fn s _ Hwf%negb_false_iff. by apply planFunction_malformed.
Qed.

Lemma forallb_flattenRegionMap (m : RegionMap) :
  forallb (wellformed filters) (flattenRegionMap m) =
  forallb (λ entry, forallb (wellformed filters) entry.2) m.
Proof.
  unfold flattenRegionMap. induction m as [|[r fns] m IH]; simpl; [done|].
  by rewrite forallb_app, IH.
Qed.

(** ** Deletion *)

Lemma In_functionsToDelete m ex0 plan n :
  createDeploymentPlan m ex0 filters = Return plan →
  In n (functionsToDelete plan) ↔
  ∃ e, In e ex0 ∧ name e = n ∧
       (∀ fn, In fn (flattenRegionMap m) → selected filters fn = true →
              name fn ≠ name e) ∧
       In e (deletable filters ex0).
Proof.
  intros (d & ex & [] & _ & -> & _)%createDeploymentPlan_planned.
  rewrite in_map_iff. split.
  - intros (e & <- & He). pose proof He as (Hex & Hown)%In_deletable.
    apply rs_existing0 in Hex as [Hex Hfree].
    exists e. repeat split; try done. apply In_deletable. tauto.
  - intros (e & He & <- & Hfree & (_ & Hown)%In_deletable).
    exists e. split; [done|]. apply In_deletable. split; [|done].
    by apply rs_existing0.
Qed.

(** C3.  A name is in [functionsToDelete] exactly when it is the name of
    an existing record that no filter-selected desired record of any
    region has the name of, whose labels pass the ownership check and
    which, unless the filter list is empty, matches a filter group. *)
Theorem functionsToDelete_iff m ex0 plan n :
  createDeploymentPlan m ex0 filters = Return plan →
  In n (functionsToDelete plan) ↔
  ∃ e, In e ex0 ∧ name e = n ∧
       (∀ r fns fn, In (r, fns) m → In fn fns → selected filters fn = true →
                    name fn ≠ name e) ∧
       deploymentTool_check (labels e) = true ∧
       (filters = [] ∨ functionMatchesAnyGroup (name e) filters = true).
Proof.
  intros Hrun. rewrite (In_functionsToDelete _ _ _ _ Hrun).
  split; intros (e & He & Hname & Hfree & Hdel); exists e.
  - apply In_deletable in Hdel as (_ & Hown & Hflt).
    repeat split; try done.
    intros r fns fn Hin Hfn. apply Hfree, In_flattenRegionMap. eauto.
  - destruct Hdel as [Hown Hflt]. repeat split; try done.
    + intros fn (r & fns & Hin & Hfn)%In_flattenRegionMap. eauto.
    + by apply In_deletable.
Qed.

(** C5.  No name to delete is the name of a record filed for creation or
    update in any region. *)
Theorem functionsToDelete_not_filed m ex0 plan n rd f :
  createDeploymentPlan m ex0 filters = Return plan →
  In n (functionsToDelete plan) →
  In rd (regionalDeployments plan) →
  In f (functionsToCreate rd ++ functionsToUpdate rd) →
  name f ≠ n.
Proof.
  intros Hrun Hn Hrd Hf.
  pose proof Hrun as (d & ex & Hd & Hrds & _)%createDeploymentPlan_planned.
  rewrite Hrds in Hrd.
  destruct (filed_planned _ _ _ _ _ _ Hd Hrd Hf)
    as (fns & fn & Hin & Hfn & Hsel & _ & ->).
  apply (In_functionsToDelete _ _ _ _ Hrun) in Hn as (e & _ & <- & Hfree & _).
  rewrite name_planned. apply Hfree; [|done].
  apply In_flattenRegionMap. eauto.
Qed.

(** ** Schedules *)

(** C4, as the planner has it.  When a plan is returned, every scheduled
    desired function that the filters select has an event trigger, and the
    record with the topic of its name as the trigger's resource is in the
    schedule list of its region; and every scheduled record filed for
    creation or update carries that resource. *)
Theorem scheduled_rewritten m ex0 plan :
  createDeploymentPlan m ex0 filters = Return plan →
  (∀ r fns fn,
     In (r, fns) m → In fn fns → selected filters fn = true → is_Some (schedule fn) →
     ∃ trigger rd,
       eventTrigger fn = Some trigger ∧
       In rd (regionalDeployments plan) ∧ region rd = r ∧
       In (set_eventTrigger
             (Some (<["resource" := getTopicName (name fn)]> trigger)) fn)
          (schedulesToCreateOrUpdate rd)) ∧
  (∀ rd f,
     In rd (regionalDeployments plan) →
     In f (functionsToCreate rd ++ functionsToUpdate rd) →
     is_Some (schedule f) →
     ∃ trigger,
       eventTrigger f = Some trigger ∧
       trigger !! "resource" = Some (getTopicName (name f))).
Proof.
  intros (d & ex & Hd & -> & _)%createDeploymentPlan_planned. split.
  - intros r fns fn Hin Hfn Hsel [sch Hsch].
    pose proof Hd as [].
    assert (malformed filters fn = false) as Hmal.
    { apply rs_wellformed0, In_flattenRegionMap. eauto. }
    unfold malformed in Hmal. rewrite Hsel, Hsch in Hmal. simpl in Hmal.
    destruct (eventTrigger fn) as [trigger|] eqn:Htrigger; [|done].
    destruct (Forall2_In_l _ _ _ _ rs_regionals0 Hin) as (rd & Hrd & []).
    exists trigger, rd. repeat split; try done.
    rewrite rf_sched0. apply in_map_iff. exists fn. split.
    + unfold planned. by rewrite Hsch, Htrigger.
    + apply filter_In. split; [done|]. by rewrite Hsel, Hsch.
  - intros rd f Hrd Hf [sch Hsch].
    destruct (filed_planned _ _ _ _ _ _ Hd Hrd Hf)
      as (fns & fn & Hin & Hfn & Hsel & Hmal & ->).
    rewrite schedule_planned in Hsch.
    unfold malformed in Hmal. rewrite Hsel, Hsch in Hmal. simpl in Hmal.
    unfold planned. rewrite Hsch.
    destruct (eventTrigger fn) as [trigger|] eqn:Htrigger; [|done].
    eexists. split; [reflexivity|]. simpl. apply lookup_insert_eq.
Qed.

(** C6, as the planner has it.  When no two filter-selected desired
    records of the same name differ in having a schedule, no name in
    [schedulesToDelete] is the name of a record in a region's
    [schedulesToCreateOrUpdate]. *)
Theorem schedulesToDelete_not_scheduled m ex0 plan n rd f :
  (∀ fn1 fn2,
     In fn1 (flattenRegionMap m) → In fn2 (flattenRegionMap m) →
     selected filters fn1 = true → selected filters fn2 = true → name fn1 = name fn2 →
     present (schedule fn1) = present (schedule fn2)) →
  createDeploymentPlan m ex0 filters = Return plan →
  In n (schedulesToDelete plan) →
  In rd (regionalDeployments plan) →
  In f (schedulesToCreateOrUpdate rd) →
  name f ≠ n.
Proof.
  intros Hagree Hrun Hn Hrd Hf.
  pose proof Hrun as (d & ex & Hd & Hrds & Hdel & Hsd)%createDeploymentPlan_planned.
  pose proof Hd as [].
  rewrite Hrds in Hrd.
  destruct (Forall2_In_r _ _ _ _ rs_regionals0 Hrd) as ([r fns] & Hin & []).
  simpl in *. rewrite rf_sched0 in Hf.
  apply in_map_iff in Hf as (fn & <- & [Hfn Hboth]%filter_In).
  apply andb_true_iff in Hboth as [Hsel Hsch].
  assert (In fn (flattenRegionMap m)) as Hflat.
  { apply In_flattenRegionMap. eauto. }
  rewrite name_planned.
  rewrite Hsd in Hn. apply in_app_iff in Hn as [Hn|Hn].
  - destruct (rs_schedDel0 n Hn) as (fn' & Hfn' & Hsel' & Hnone & <-).
    intros Heq. specialize (Hagree fn fn' Hflat Hfn' Hsel Hsel' Heq).
    rewrite Hsch, Hnone in Hagree. done.
  - apply in_map_iff in Hn as (e & <- & [He _]%filter_In).
    apply In_deletable in He as [He _].
    apply rs_existing0 in He as [_ Hfree]. eauto.
Qed.

(** ** Creation and update *)

(** C7, as the planner has it.  When the names of the filter-selected
    desired records are pairwise distinct, so are the names filed for
    creation or update over the whole plan. *)
Theorem filedNames_NoDup m ex0 plan :
  NoDup (List.map name (List.filter (selected filters) (flattenRegionMap m))) →
  createDeploymentPlan m ex0 filters = Return plan →
  NoDup (filedNames plan).
Proof.
  intros Hnodup (d & ex & [] & Hrds & _)%createDeploymentPlan_planned.
  unfold filedNames. rewrite Hrds.
  by rewrite (filedNames_selected _ _ _ rs_regionals0).
Qed.

(** C8, as the planner has it.  When a plan is returned, a desired
    function whose name no existing record has is filed for creation in its
    region if the filters select it, and no record of its name is filed
    for update. *)
Theorem absent_created m ex0 plan r fns fn :
  createDeploymentPlan m ex0 filters = Return plan →
  In (r, fns) m → In fn fns →
  (∀ e, In e ex0 → name e ≠ name fn) →
  (selected filters fn = true →
   ∃ rd, In rd (regionalDeployments plan) ∧ region rd = r ∧
         In (planned fn) (functionsToCreate rd)) ∧
  (∀ rd f, In rd (regionalDeployments plan) → In f (functionsToUpdate rd) →
           name f ≠ name fn).
Proof.
  intros (d & ex & [] & -> & _)%createDeploymentPlan_planned Hin Hfn Hfresh.
  split.
  - intros Hsel.
    destruct (Forall2_In_l _ _ _ _ rs_regionals0 Hin) as (rd & Hrd & []).
    exists rd. repeat split; try done. by apply rf_create0.
  - intros rd f Hrd Hf.
    destruct (Forall2_In_r _ _ _ _ rs_regionals0 Hrd) as (entry & _ & []).
    destruct (rf_update0 f Hf) as (e & He & <-). by apply Hfresh.
Qed.

(** ** Completion *)

(** C9, as the planner has it.  The call returns a plan exactly when no
    filter-selected scheduled desired function lacks an event trigger, and
    otherwise ends with the [TypeError] of the assignment at line 134. *)
Theorem createDeploymentPlan_completion m ex0 :
  if forallb (wellformed filters) (flattenRegionMap m)
  then ∃ plan, createDeploymentPlan m ex0 filters = Return plan
  else createDeploymentPlan m ex0 filters =
       Throw (TypeError "Cannot set property 'resource' of undefined").
Proof.
  rewrite forallb_flattenRegionMap. unfold createDeploymentPlan.
  destruct (forallb _ m) eqn:Hall.
  - destruct (forOf_completes (planRegion filters) (λ entry, forallb (wellformed filters) entry.2) m
                (mkState (mkPlan [] [] []) ex0)) as [[d ex] ->]; [|done|].
    + intros [r fns] st _. apply planRegion_completes.
    + simpl. eauto.
  - rewrite (forOf_throws (planRegion filters) (λ entry, forallb (wellformed filters) entry.2)
               (TypeError "Cannot set property 'resource' of undefined"));
      try done.
    + intros [r fns] st _. apply planRegion_completes.
    + intros [r fns] st _. apply planRegion_throws.
Qed.

End PlannerFacts.

(** * Further properties of the planner *)

Section PlannerMore.

Context {C : Collaborators}.
Variable filters : list (list string).

(** ** The shape of the plan *)

(** X6.  The plan has one regional deployment for each region of the map, in
    the order of the map, the regions that file nothing included. *)
Theorem plan_regions m ex0 plan :
  createDeploymentPlan m ex0 filters = Return plan →
  List.map region (regionalDeployments plan) = List.map fst m.
Proof.
  intros (d & ex & [] & -> & _)%createDeploymentPlan_planned.
  clear - rs_regionals0.
  induction rs_regionals0 as [|entry rd m' rds [] _ IH]; simpl; [done|].
  by rewrite IH, rf_region0.
Qed.

(** X7.  Region by region, the create and the update list together hold the
    filter-selected functions of the region, as filed, each as often as it
    occurs in the region: none is dropped, none is in both lists, and no
    other record is filed. *)
Theorem filed_exactly_selected m ex0 plan :
  createDeploymentPlan m ex0 filters = Return plan →
  Forall2 (λ entry rd,
             functionsToCreate rd ++ functionsToUpdate rd ≡ₚ
             List.map planned (List.filter (selected filters) entry.2))
    m (regionalDeployments plan).
Proof.
  intros (d & ex & [] & -> & _)%createDeploymentPlan_planned.
  eapply Forall2_impl; [exact rs_regionals0|].
  intros entry rd []. done.
Qed.

(** X8.  Region by region, the schedule list holds, in the order of the region,
    the filter-selected functions that have a schedule, as filed; each of
    them is also in the create or the update list of the region. *)
Theorem schedules_listed m ex0 plan :
  createDeploymentPlan m ex0 filters = Return plan →
  Forall2 (λ entry rd,
             schedulesToCreateOrUpdate rd =
               List.map planned
                 (List.filter (λ fn, selected filters fn && present (schedule fn))
                    entry.2) ∧
             ∀ f, In f (schedulesToCreateOrUpdate rd) →
                  In f (functionsToCreate rd ++ functionsToUpdate rd))
    m (regionalDeployments plan).
Proof.
  intros (d & ex & [] & -> & _)%createDeploymentPlan_planned.
  eapply Forall2_impl; [exact rs_regionals0|].
  intros entry rd []. split; [done|].
  intros f Hf. rewrite rf_sched0 in Hf.
  apply in_map_iff in Hf as (fn & <- & [Hfn [Hsel _]%andb_true_iff]%filter_In).
  apply (Permutation_in _ (Permutation_sym rf_files0)).
  apply in_map_iff. exists fn. split; [done|]. by apply filter_In.
Qed.

(** X9.  A filed record is a desired record of its region with at most one
    change: the [resource] entry of its event trigger.  Every other field,
    and every other entry of the event trigger, is the desired record's. *)
Theorem only_resource_changes m ex0 plan rd f :
  createDeploymentPlan m ex0 filters = Return plan →
  In rd (regionalDeployments plan) →
  In f (functionsToCreate rd ++ functionsToUpdate rd ++ schedulesToCreateOrUpdate rd) →
  ∃ fns fn,
    In (region rd, fns) m ∧ In fn fns ∧ selected filters fn = true ∧
    set_eventTrigger (eventTrigger fn) f = fn ∧
    (eventTrigger f = eventTrigger fn ∨
     ∃ trigger trigger',
       eventTrigger fn = Some trigger ∧ eventTrigger f = Some trigger' ∧
       ∀ k, k ≠ "resource" → trigger' !! k = trigger !! k).
Proof.
  intros (d & ex & Hd & -> & _)%createDeploymentPlan_planned Hrd Hf.
  assert (∃ fns fn, In (region rd, fns) m ∧ In fn fns ∧
                    selected filters fn = true ∧ f = planned fn)
    as (fns & fn & Hin & Hfn & Hsel & ->).
  { rewrite app_assoc in Hf. apply in_app_iff in Hf as [Hf|Hf].
    - destruct (filed_planned _ _ _ _ _ _ _ Hd Hrd Hf)
        as (fns & fn & ? & ? & ? & _ & ?). eauto 10.
    - destruct Hd.
      destruct (Forall2_In_r _ _ _ _ rs_regionals0 Hrd) as ([r fns] & Hin & []).
      simpl in *. subst r. rewrite rf_sched0 in Hf.
      apply in_map_iff in Hf as (fn & <- & [Hfn [Hsel _]%andb_true_iff]%filter_In).
      eauto 10. }
  exists fns, fn. repeat split; try done.
  - unfold planned. destruct (schedule fn), (eventTrigger fn) eqn:E; try done;
      destruct fn; simpl in *; by subst.
  - unfold planned. destruct (schedule fn), (eventTrigger fn) as [trigger|] eqn:E;
      try (by left).
    right. exists trigger, (<["resource" := getTopicName (name fn)]> trigger).
    repeat split; try done. intros k Hk. by apply lookup_insert_ne.
Qed.

(** ** Functions the filters do not select *)

Lemma planFunctions_filter fns s :
  forOf (planFunction filters) (List.filter (selected filters) fns) s =
  forOf (planFunction filters) fns s.
Proof.
  revert s. induction fns as [|x fns IH]; intros s; simpl; [done|].
  destruct (selected filters x) eqn:Hsel; simpl.
  - destruct (planFunction filters x s); simpl; [apply IH | done].
  - rewrite (planFunction_skip filters x s Hsel). simpl. apply IH.
Qed.

(** X10.  Desired functions that the filters do not select leave no trace:
    removing them from the map beforehand gives the same result. *)
Theorem unselected_ignored m ex0 :
  createDeploymentPlan
    (List.map (λ entry : string * list CloudFunctionTrigger,
                 (entry.1, List.filter (selected filters) entry.2)) m)
    ex0 filters =
  createDeploymentPlan m ex0 filters.
Proof.
  unfold createDeploymentPlan. f_equal.
  generalize (mkState (mkPlan [] [] []) ex0).
  induction m as [|[r fns] m IH]; intros st; [done|].
  cbn [List.map forOf fst snd].
  replace (planRegion filters (r, List.filter (selected filters) fns) st)
    with (planRegion filters (r, fns) st)
    by (unfold planRegion; by rewrite planFunctions_filter).
  destruct (planRegion filters (r, fns) st); simpl; [apply IH | done].
Qed.

(** ** Schedules to delete *)

Lemma scheduledLabel_true e :
  scheduledLabel (Some e) = true ↔
  ∃ l, labels e = Some l ∧ l !! "deployment-scheduled" = Some "true".
Proof.
  unfold scheduledLabel. destruct (labels e) as [l|]; [|split; [done|]].
  - destruct (l !! "deployment-scheduled") as [v|] eqn:Hv.
    + rewrite String.eqb_eq. split; [intros ->; eauto|].
      intros (l' & [= <-] & Hl'). congruence.
    + split; [done|]. intros (l' & [= <-] & Hl'). congruence.
  - by intros (l & ? & _).
Qed.

Lemma planFunctions_schedDel fns d0 ex1 rd0 d ex rd :
  forOf (planFunction filters) fns (mkState d0 ex1, rd0) =
    Return (mkState d ex, rd) →
  (∀ e, In e ex → In e ex1) ∧
  ∀ n, In n (schedulesToDelete d) →
       In n (schedulesToDelete d0) ∨
       ∃ e, In e ex1 ∧ name e = n ∧ scheduledLabel (Some e) = true.
Proof.
  revert d0 ex1 rd0. induction fns as [|x fns IH]; intros d0 ex1 rd0 Hrun.
  { injection Hrun as <- <- <-. auto. }
  cbn [forOf] in Hrun.
  destruct (planFunction filters x _) as [[[d1 ex2] rd1]|] eqn:Hx;
    simpl in Hrun; [|done].
  apply planFunction_inv in Hx as [_ Hx].
  destruct (IH _ _ _ Hrun) as [Hsub Hsd]. clear IH Hrun.
  destruct (selected filters x); injection Hx as -> -> ->; [|done].
  split.
  - intros e He. by apply Hsub, In_unmatched in He as [He _].
  - intros n Hn. destruct (Hsd n Hn) as [Hold|(e & He & Hname & Hlabel)].
    + rewrite schedulesToDelete_dropSchedule in Hold.
      apply in_app_iff in Hold as [Hold|Hold]; [by left|].
      destruct (negb _); simpl in Hold; [|done].
      destruct (matching x ex1) as [e|] eqn:Hm; [|done].
      destruct (scheduledLabel (Some e)) eqn:Hlabel; [|done].
      destruct Hold as [<-|[]].
      apply matching_Some in Hm as [He Hname]. eauto.
    + apply In_unmatched in He as [He _]. eauto.
Qed.

Lemma planRegions_schedDel m d0 ex1 d ex :
  forOf (planRegion filters) m (mkState d0 ex1) = Return (mkState d ex) →
  (∀ e, In e ex → In e ex1) ∧
  ∀ n, In n (schedulesToDelete d) →
       In n (schedulesToDelete d0) ∨
       ∃ e, In e ex1 ∧ name e = n ∧ scheduledLabel (Some e) = true.
Proof.
  revert d0 ex1. induction m as [|[r fns] m IH]; intros d0 ex1 Hrun.
  { injection Hrun as <- <-. auto. }
  cbn [forOf] in Hrun. unfold planRegion at 1 in Hrun.
  destruct (forOf (planFunction filters) fns _) as [[[d1 ex2] rd]|] eqn:Hfns;
    simpl in Hrun; [|done].
  apply planFunctions_schedDel in Hfns as [Hsub1 Hsd1].
  destruct (IH _ _ Hrun) as [Hsub Hsd]. clear IH Hrun.
  split; [auto|].
  intros n Hn. destruct (Hsd n Hn) as [Hold|(e & He & Hrest)].
  - simpl in Hold. auto.
  - right. exists e. auto.
Qed.

(** X11.  A schedule is deleted only for a function that exists with the label
    [deployment-scheduled] set to ["true"]: every name in
    [schedulesToDelete] is the name of such an existing record. *)
Theorem schedulesToDelete_sound m ex0 plan n :
  createDeploymentPlan m ex0 filters = Return plan →
  In n (schedulesToDelete plan) →
  ∃ e l, In e ex0 ∧ name e = n ∧ labels e = Some l ∧
         l !! "deployment-scheduled" = Some "true".
Proof.
  unfold createDeploymentPlan. intros Hrun Hn.
  destruct (forOf (planRegion filters) m _) as [[d ex]|] eqn:Hloop;
    simpl in Hrun; [|done].
  injection Hrun as <-.
  apply planRegions_schedDel in Hloop as [Hsub Hsd].
  rewrite schedulesToDelete_deleteSchedules in Hn. simpl in Hn.
  assert (∃ e, In e ex0 ∧ name e = n ∧ scheduledLabel (Some e) = true)
    as (e & He & Hname & (l & Hl & Hkey)%scheduledLabel_true); [|eauto 10].
  apply in_app_iff in Hn as [Hn|Hn].
  - destruct (Hsd n Hn) as [[]|?]. done.
  - apply in_map_iff in Hn as (e & <- & [He Hlabel]%filter_In).
    apply (In_deletable filters) in He as [He _]. eauto.
Qed.

(** ** The working list of existing functions *)

Lemma filter_filter_andb {A : Type} (p q : A → bool) (l : list A) :
  List.filter q (List.filter p l) = List.filter (λ x, p x && q x) l.
Proof.
  induction l as [|x l IH]; simpl; [done|].
  destruct (p x); simpl; [|done]. destruct (q x); by rewrite IH.
Qed.

Lemma filter_all {A : Type} (l : list A) : List.filter (λ _, true) l = l.
Proof. induction l as [|x l IH]; simpl; by rewrite ?IH. Qed.

Lemma planFunctions_existing fns d0 ex1 rd0 d ex rd :
  forOf (planFunction filters) fns (mkState d0 ex1, rd0) =
    Return (mkState d ex, rd) →
  ex = List.filter (λ e, negb (claimedBy filters fns e)) ex1.
Proof.
  revert d0 ex1 rd0. induction fns as [|x fns IH]; intros d0 ex1 rd0 Hrun.
  { injection Hrun as <- <- <-. simpl. by rewrite filter_all. }
  cbn [forOf] in Hrun.
  destruct (planFunction filters x _) as [[[d1 ex2] rd1]|] eqn:Hx;
    simpl in Hrun; [|done].
  apply planFunction_inv in Hx as [_ Hx].
  rewrite (IH _ _ _ Hrun). clear IH Hrun. unfold claimedBy. simpl.
  destruct (selected filters x); injection Hx as -> -> ->; [|done].
  unfold unmatched. rewrite filter_filter_andb.
  apply List.filter_ext. intros e. simpl. by rewrite negb_orb.
Qed.

Lemma planRegions_existing m d0 ex1 d ex :
  forOf (planRegion filters) m (mkState d0 ex1) = Return (mkState d ex) →
  ex = List.filter (orphan filters m) ex1.
Proof.
  revert d0 ex1. induction m as [|[r fns] m IH]; intros d0 ex1 Hrun.
  { injection Hrun as <- <-. unfold orphan. simpl. by rewrite filter_all. }
  cbn [forOf] in Hrun. unfold planRegion at 1 in Hrun.
  destruct (forOf (planFunction filters) fns _) as [[[d1 ex2] rd]|] eqn:Hfns;
    simpl in Hrun; [|done].
  apply planFunctions_existing in Hfns as ->.
  rewrite (IH _ _ Hrun). clear IH Hrun.
  rewrite filter_filter_andb. apply List.filter_ext. intros e.
  unfold orphan, claimedBy, flattenRegionMap. simpl.
  by rewrite existsb_app, negb_orb.
Qed.

(** X12.  The functions to delete are the orphans among the existing functions
    that pass the ownership check and, unless the filter list is empty, the
    filters: their names, in the order of the existing list and once for
    each such record.  The schedules to delete end with the names of those
    of them that carry the scheduled label. *)
Theorem deletions_exact m ex0 plan :
  createDeploymentPlan m ex0 filters = Return plan →
  functionsToDelete plan =
    List.map name (deletable filters (List.filter (orphan filters m) ex0)) ∧
  ∃ dropped,
    schedulesToDelete plan =
      dropped ++
      List.map name
        (List.filter (λ e, scheduledLabel (Some e))
           (deletable filters (List.filter (orphan filters m) ex0))).
Proof.
  unfold createDeploymentPlan. intros Hrun.
  destruct (forOf (planRegion filters) m _) as [[d ex]|] eqn:Hloop;
    simpl in Hrun; [|done].
  injection Hrun as <-.
  apply planRegions_existing in Hloop as ->.
  rewrite functionsToDelete_deleteSchedules, schedulesToDelete_deleteSchedules.
  simpl. eauto.
Qed.

(** ** The plan for desired functions of distinct names *)

Lemma matching_unmatched fn x ex :
  name fn ≠ name x → matching fn (unmatched x ex) = matching fn ex.
Proof.
  intros Hne. unfold matching, unmatched.
  induction ex as [|e ex IH]; simpl; [done|].
  destruct (String.eqb (name e) (name x)) eqn:Hex; simpl.
  - apply String.eqb_eq in Hex.
    destruct (String.eqb (name e) (name fn)) eqn:Hefn; [|done].
    apply String.eqb_eq in Hefn. congruence.
  - by rewrite IH.
Qed.

Lemma planFunctions_split ex0 fns d0 ex1 rd0 d ex rd :
  NoDup (List.map name (List.filter (selected filters) fns)) →
  (∀ fn, In fn fns → selected filters fn = true →
         matching fn ex1 = matching fn ex0) →
  forOf (planFunction filters) fns (mkState d0 ex1, rd0) =
    Return (mkState d ex, rd) →
  functionsToCreate rd =
    functionsToCreate rd0 ++ List.map planned (List.filter (toCreate filters ex0) fns) ∧
  functionsToUpdate rd =
    functionsToUpdate rd0 ++ List.map planned (List.filter (toUpdate filters ex0) fns) ∧
  regionalDeployments d = regionalDeployments d0 ∧
  schedulesToDelete d =
    schedulesToDelete d0 ++
    List.map name (List.filter (losesSchedule filters ex0) fns) ∧
  ∀ fn, ¬ In (name fn) (List.map name (List.filter (selected filters) fns)) →
        matching fn ex = matching fn ex1.
Proof.
  revert d0 ex1 rd0. induction fns as [|x fns IH]; intros d0 ex1 rd0 Hnodup Hm Hrun.
  { injection Hrun as <- <- <-. simpl. by rewrite !app_nil_r. }
  cbn [forOf] in Hrun.
  destruct (planFunction filters x _) as [[[d1 ex2] rd1]|] eqn:Hx;
    simpl in Hrun; [|done].
  apply planFunction_inv in Hx as [_ Hx].
  unfold toCreate, toUpdate, losesSchedule in *. simpl in *.
  destruct (selected filters x) eqn:Hsel; injection Hx as -> -> ->; simpl in *.
  - apply NoDup_cons in Hnodup as [Hx Hnodup].
    rewrite list_elem_of_In in Hx.
    assert (∀ fn, In fn fns → selected filters fn = true → name fn ≠ name x)
      as Hne.
    { intros fn Hfn Hs Heq. apply Hx. rewrite <- Heq.
      apply in_map_iff. exists fn. split; [done|]. by apply filter_In. }
    assert (∀ fn, In fn fns → selected filters fn = true →
                  matching fn (unmatched x ex1) = matching fn ex0) as Hm'.
    { intros fn Hfn Hs. rewrite matching_unmatched by auto. auto. }
    destruct (IH _ _ _ Hnodup Hm' Hrun) as (Hc & Hu & Hr & Hs & Hkeep);
      clear IH Hrun Hm'.
    rewrite Hc, Hu, Hr, Hs.
    rewrite functionsToCreate_fileFunction, functionsToUpdate_fileFunction,
      regionalDeployments_dropSchedule, schedulesToDelete_dropSchedule.
    rewrite (Hm x) by auto.
    repeat split.
    + destruct (present (matching x ex0)); simpl; by rewrite <- ?app_assoc.
    + destruct (present (matching x ex0)); simpl; by rewrite <- ?app_assoc.
    + destruct (negb (present (schedule x)) && scheduledLabel (matching x ex0));
        simpl; by rewrite <- ?app_assoc.
    + intros fn Hfn. rewrite Hkeep by tauto.
      apply matching_unmatched. intros Heq. apply Hfn. by left.
  - apply (IH _ _ _ Hnodup) in Hrun; [done|]. auto.
Qed.

Lemma planRegions_split ex0 m d0 ex1 d ex :
  NoDup (List.map name (List.filter (selected filters) (flattenRegionMap m))) →
  (∀ fn, In fn (flattenRegionMap m) → selected filters fn = true →
         matching fn ex1 = matching fn ex0) →
  forOf (planRegion filters) m (mkState d0 ex1) = Return (mkState d ex) →
  ∃ rds,
    regionalDeployments d = regionalDeployments d0 ++ rds ∧
    Forall2 (λ entry rd,
               functionsToCreate rd =
                 List.map planned (List.filter (toCreate filters ex0) entry.2) ∧
               functionsToUpdate rd =
                 List.map planned (List.filter (toUpdate filters ex0) entry.2))
      m rds ∧
    schedulesToDelete d =
      schedulesToDelete d0 ++
      List.map name (List.filter (losesSchedule filters ex0) (flattenRegionMap m)).
Proof.
  revert d0 ex1. induction m as [|[r fns] m IH]; intros d0 ex1 Hnodup Hm Hrun.
  { injection Hrun as <- <-. exists []. simpl. by rewrite !app_nil_r. }
  cbn [forOf] in Hrun. unfold planRegion at 1 in Hrun.
  destruct (forOf (planFunction filters) fns _) as [[[d1 ex2] rd]|] eqn:Hfns;
    simpl in Hrun; [|done].
  unfold flattenRegionMap in Hnodup, Hm. simpl in Hnodup, Hm.
  rewrite List.filter_app, List.map_app in Hnodup.
  apply NoDup_app in Hnodup as (Hnodup1 & Hdisj & Hnodup2).
  apply (planFunctions_split ex0) in Hfns as (Hc & Hu & Hr & Hs & Hkeep);
    [|done|intros fn Hfn; apply Hm, in_app_iff; by left].
  assert (∀ fn, In fn (List.concat (List.map snd m)) →
                selected filters fn = true →
                matching fn ex2 = matching fn ex0) as Hm'.
  { intros fn Hfn Hsel. rewrite Hkeep.
    - apply Hm; [|done]. apply in_app_iff. by right.
    - intros Hin%list_elem_of_In. apply (Hdisj _ Hin).
      apply list_elem_of_In, in_map_iff. exists fn. split; [done|].
      by apply filter_In. }
  destruct (IH _ _ Hnodup2 Hm' Hrun) as (rds & Hrds & Hall & Hsd);
    clear IH Hrun Hm'.
  exists (rd :: rds). simpl in *. repeat split.
  - by rewrite Hrds, Hr, <- app_assoc.
  - constructor; [|done]. simpl. by rewrite Hc, Hu.
  - unfold flattenRegionMap. simpl.
    by rewrite Hsd, Hs, List.filter_app, List.map_app, <- app_assoc.
Qed.

(** X13.  When the filter-selected desired functions have pairwise distinct
    names, the planner is a diff against the existing list it was called
    with: in each region, in the order of the region, the selected functions
    with no existing function of their name are filed for creation and those
    with one are filed for update. *)
Theorem create_update_split m ex0 plan :
  NoDup (List.map name (List.filter (selected filters) (flattenRegionMap m))) →
  createDeploymentPlan m ex0 filters = Return plan →
  Forall2 (λ entry rd,
             functionsToCreate rd =
               List.map planned (List.filter (toCreate filters ex0) entry.2) ∧
             functionsToUpdate rd =
               List.map planned (List.filter (toUpdate filters ex0) entry.2))
    m (regionalDeployments plan).
Proof.
  unfold createDeploymentPlan. intros Hnodup Hrun.
  destruct (forOf (planRegion filters) m _) as [[d ex]|] eqn:Hloop;
    simpl in Hrun; [|done].
  injection Hrun as <-.
  apply (planRegions_split ex0) in Hloop as (rds & Hrds & Hall & _); [|done..].
  rewrite regionalDeployments_deleteSchedules. simpl in *. by rewrite Hrds.
Qed.

(** X14.  Under the same condition the schedules to delete are, in this order:
    the names of the selected desired functions without a schedule whose
    first existing namesake carries the scheduled label, in the order of the
    map; then the names of the deleted functions that carry the label. *)
Theorem schedulesToDelete_exact m ex0 plan :
  NoDup (List.map name (List.filter (selected filters) (flattenRegionMap m))) →
  createDeploymentPlan m ex0 filters = Return plan →
  schedulesToDelete plan =
    List.map name (List.filter (losesSchedule filters ex0) (flattenRegionMap m)) ++
    List.map name
      (List.filter (λ e, scheduledLabel (Some e))
         (deletable filters (List.filter (orphan filters m) ex0))).
Proof.
  unfold createDeploymentPlan. intros Hnodup Hrun.
  destruct (forOf (planRegion filters) m _) as [[d ex]|] eqn:Hloop;
    simpl in Hrun; [|done].
  injection Hrun as <-.
  pose proof (planRegions_existing _ _ _ _ _ Hloop) as ->.
  apply (planRegions_split ex0) in Hloop as (rds & _ & _ & Hsd); [|done..].
  rewrite schedulesToDelete_deleteSchedules. simpl in *. by rewrite Hsd.
Qed.

(** ** A first deployment *)

Lemma planFunctions_fresh fns d0 rd0 d ex rd :
  forOf (planFunction filters) fns (mkState d0 [], rd0) =
    Return (mkState d ex, rd) →
  d = d0 ∧ ex = [] ∧
  rd = mkRegional (region rd0) (sourceToken rd0) (firstFunctionDeployment rd0)
         (functionsToCreate rd0 ++
          List.map planned (List.filter (selected filters) fns))
         (functionsToUpdate rd0)
         (schedulesToCreateOrUpdate rd0 ++
          List.map planned
            (List.filter (λ fn, selected filters fn && present (schedule fn)) fns)).
Proof.
  revert rd0. induction fns as [|x fns IH]; intros rd0 Hrun.
  { injection Hrun as <- <- <-. simpl. rewrite !app_nil_r. by destruct rd0. }
  cbn [forOf] in Hrun.
  destruct (planFunction filters x _) as [[[d1 ex2] rd1]|] eqn:Hx;
    simpl in Hrun; [|done].
  apply planFunction_inv in Hx as [_ Hx]. simpl.
  destruct (selected filters x) eqn:Hsel; injection Hx as -> -> ->; simpl.
  - unfold dropSchedule in Hrun. simpl in Hrun.
    unfold scheduledLabel in Hrun. rewrite andb_false_r in Hrun.
    destruct (IH _ Hrun) as (-> & -> & ->). clear IH Hrun.
    repeat split. unfold fileFunction. simpl.
    destruct (present (schedule x)); simpl; by rewrite <- ?app_assoc.
  - by apply IH.
Qed.

Lemma planRegions_fresh m d0 d ex :
  forOf (planRegion filters) m (mkState d0 []) = Return (mkState d ex) →
  ex = [] ∧
  d = mkPlan
        (regionalDeployments d0 ++
         List.map
           (λ entry : string * list CloudFunctionTrigger,
              mkRegional entry.1 None None
                (List.map planned (List.filter (selected filters) entry.2)) []
                (List.map planned
                   (List.filter (λ fn, selected filters fn && present (schedule fn))
                      entry.2)))
           m)
        (functionsToDelete d0) (schedulesToDelete d0).
Proof.
  revert d0. induction m as [|[r fns] m IH]; intros d0 Hrun.
  { injection Hrun as <- <-. simpl. rewrite app_nil_r. by destruct d0. }
  cbn [forOf] in Hrun. unfold planRegion at 1 in Hrun.
  destruct (forOf (planFunction filters) fns _) as [[[d1 ex2] rd]|] eqn:Hfns;
    simpl in Hrun; [|done].
  apply planFunctions_fresh in Hfns as (-> & -> & ->).
  destruct (IH _ Hrun) as (-> & ->). clear IH Hrun.
  split; [done|]. simpl. by rewrite <- app_assoc.
Qed.

(** X15.  Against an empty list of existing functions the plan is: for each
    region, in the order of the map, every filter-selected function filed
    for creation and the scheduled ones among them filed for a schedule, in
    the order of the region; nothing to update and nothing to delete. *)
Theorem fresh_deployment m plan :
  createDeploymentPlan m [] filters = Return plan →
  plan =
    mkPlan
      (List.map
         (λ entry : string * list CloudFunctionTrigger,
            mkRegional entry.1 None None
              (List.map planned (List.filter (selected filters) entry.2)) []
              (List.map planned
                 (List.filter (λ fn, selected filters fn && present (schedule fn))
                    entry.2)))
         m)
      [] [].
Proof.
  unfold createDeploymentPlan. intros Hrun.
  destruct (forOf (planRegion filters) m _) as [[d ex]|] eqn:Hloop;
    simpl in Hrun; [|done].
  apply planRegions_fresh in Hloop as (-> & ->).
  by injection Hrun as <-.
Qed.

(** ** Fields the planner leaves to its caller *)

Lemma planFunctions_optional fns s0 s :
  forOf (planFunction filters) fns s0 = Return s →
  sourceToken s.2 = sourceToken s0.2 ∧
  firstFunctionDeployment s.2 = firstFunctionDeployment s0.2.
Proof.
  revert s0. induction fns as [|x fns IH]; intros [[d0 ex0] rd0] Hrun.
  { by injection Hrun as <-. }
  cbn [forOf] in Hrun.
  destruct (planFunction filters x _) as [s1|] eqn:Hx; simpl in Hrun; [|done].
  apply planFunction_inv in Hx as [_ ->].
  destruct (IH _ Hrun) as [-> ->]. clear IH Hrun.
  destruct (selected filters x); [|done]. simpl.
  unfold fileFunction.
  by destruct (present (matching x ex0)), (present (schedule x)).
Qed.

Lemma planRegions_optional m d0 ex1 d ex rd :
  forOf (planRegion filters) m (mkState d0 ex1) = Return (mkState d ex) →
  In rd (regionalDeployments d) →
  In rd (regionalDeployments d0) ∨
  sourceToken rd = None ∧ firstFunctionDeployment rd = None.
Proof.
  revert d0 ex1. induction m as [|[r fns] m IH]; intros d0 ex1 Hrun Hrd.
  { injection Hrun as <- <-. by left. }
  cbn [forOf] in Hrun. unfold planRegion at 1 in Hrun.
  destruct (forOf (planFunction filters) fns _) as [[[d1 ex2] rd1]|] eqn:Hfns;
    simpl in Hrun; [|done].
  pose proof (planFunctions_optional _ _ _ Hfns) as [Htoken Hfirst].
  apply planFunctions_planned in Hfns as [].
  destruct (IH _ _ Hrun Hrd) as [Hold|?]; [|by right]. clear IH Hrun.
  simpl in *. apply in_app_iff in Hold as [Hold|[<-|[]]].
  - left. by rewrite <- rp_regionals0.
  - by right.
Qed.

(** X16.  The planner sets neither [sourceToken] nor [firstFunctionDeployment]:
    both are absent from every regional deployment of the plan. *)
Theorem optional_fields_unset m ex0 plan rd :
  createDeploymentPlan m ex0 filters = Return plan →
  In rd (regionalDeployments plan) →
  sourceToken rd = None ∧ firstFunctionDeployment rd = None.
Proof.
  unfold createDeploymentPlan. intros Hrun Hrd.
  destruct (forOf (planRegion filters) m _) as [[d ex]|] eqn:Hloop;
    simpl in Hrun; [|done].
  injection Hrun as <-.
  rewrite regionalDeployments_deleteSchedules in Hrd. simpl in Hrd.
  by destruct (planRegions_optional _ _ _ _ _ _ Hloop Hrd) as [[]|].
Qed.

End PlannerMore.

(** * Worked examples *)

#[local] Existing Instance Sample.collaborators.

Example demoPlan_lists :
  List.map (λ rd, (region rd,
                   List.map name (functionsToCreate rd),
                   List.map name (functionsToUpdate rd),
                   List.map name (schedulesToCreateOrUpdate rd)))
    (regionalDeployments Sample.demoPlan) =
    [("us-central1",
      ["projects/demo/locations/us-central1/functions/job"],
      ["projects/demo/locations/us-central1/functions/api"],
      ["projects/demo/locations/us-central1/functions/job"]);
     ("europe-west1",
      ["projects/demo/locations/europe-west1/functions/api"], [], [])] ∧
  functionsToDelete Sample.demoPlan = [Sample.oldName] ∧
  schedulesToDelete Sample.demoPlan =
    ["projects/demo/locations/us-central1/functions/api"; Sample.oldName].
Proof. repeat split; vm_compute; reflexivity. Qed.

(** ** Instances of the theorems *)

Lemma functionsToDelete_iff_witness :
  createDeploymentPlan Sample.demoMap Sample.demoExisting [] = Return Sample.demoPlan ∧
  (In Sample.oldName (functionsToDelete Sample.demoPlan) ↔
   ∃ e, In e Sample.demoExisting ∧ name e = Sample.oldName ∧
        (∀ r fns fn, In (r, fns) Sample.demoMap → In fn fns →
                     selected [] fn = true → name fn ≠ name e) ∧
        deploymentTool_check (labels e) = true ∧
        (@nil (list string) = [] ∨ functionMatchesAnyGroup (name e) [] = true)).
Proof.
  split; [vm_compute; reflexivity|].
  apply (functionsToDelete_iff (C := Sample.collaborators) []
           Sample.demoMap Sample.demoExisting Sample.demoPlan Sample.oldName).
  vm_compute. reflexivity.
Defined.

Lemma functionsToDelete_not_filed_witness :
  createDeploymentPlan Sample.demoMap Sample.demoExisting [] = Return Sample.demoPlan ∧
  name (planned Sample.jobRecord) ≠ Sample.oldName.
Proof.
  split; [vm_compute; reflexivity|].
  apply (functionsToDelete_not_filed (C := Sample.collaborators) []
           Sample.demoMap Sample.demoExisting Sample.demoPlan Sample.oldName
           Sample.demoRegional (planned Sample.jobRecord)).
  - vm_compute. reflexivity.
  - vm_compute. left. reflexivity.
  - vm_compute. left. reflexivity.
  - vm_compute. left. reflexivity.
Defined.

Lemma scheduled_rewritten_witness :
  createDeploymentPlan Sample.demoMap Sample.demoExisting [] = Return Sample.demoPlan ∧
  ∃ trigger rd,
    eventTrigger Sample.jobRecord = Some trigger ∧
    In rd (regionalDeployments Sample.demoPlan) ∧ region rd = "us-central1" ∧
    In (set_eventTrigger
          (Some (<["resource" := getTopicName (name Sample.jobRecord)]> trigger))
          Sample.jobRecord)
       (schedulesToCreateOrUpdate rd).
Proof.
  split; [vm_compute; reflexivity|].
  apply (proj1 (scheduled_rewritten (C := Sample.collaborators) []
                  Sample.demoMap Sample.demoExisting Sample.demoPlan
                  ltac:(vm_compute; reflexivity))
           "us-central1" [Sample.jobRecord; Sample.apiRecord] Sample.jobRecord).
  - vm_compute. left. reflexivity.
  - vm_compute. left. reflexivity.
  - vm_compute. reflexivity.
  - vm_compute. eexists. reflexivity.
Defined.

Lemma schedulesToDelete_not_scheduled_witness :
  createDeploymentPlan Sample.demoMap Sample.demoExisting [] = Return Sample.demoPlan ∧
  name (planned Sample.jobRecord) ≠ Sample.oldName.
Proof.
  split; [vm_compute; reflexivity|].
  apply (schedulesToDelete_not_scheduled (C := Sample.collaborators) []
           Sample.demoMap Sample.demoExisting Sample.demoPlan Sample.oldName
           Sample.demoRegional (planned Sample.jobRecord)).
  - intros fn1 fn2 H1 H2 _ _ Hname.
    vm_compute in H1. vm_compute in H2.
    destruct H1 as [<-|[<-|[<-|[]]]]; destruct H2 as [<-|[<-|[<-|[]]]];
      vm_compute in Hname; first [reflexivity | discriminate Hname].
  - vm_compute. reflexivity.
  - vm_compute. right. left. reflexivity.
  - vm_compute. left. reflexivity.
  - vm_compute. left. reflexivity.
Defined.

Lemma filedNames_NoDup_witness :
  createDeploymentPlan Sample.demoMap Sample.demoExisting [] = Return Sample.demoPlan ∧
  NoDup (filedNames Sample.demoPlan).
Proof.
  split; [vm_compute; reflexivity|].
  apply (filedNames_NoDup (C := Sample.collaborators) []
           Sample.demoMap Sample.demoExisting Sample.demoPlan).
  - apply (bool_decide_unpack _). vm_compute. exact I.
  - vm_compute. reflexivity.
Defined.

Lemma absent_created_witness :
  createDeploymentPlan Sample.demoMap Sample.demoExisting [] = Return Sample.demoPlan ∧
  (selected [] Sample.jobRecord = true →
   ∃ rd, In rd (regionalDeployments Sample.demoPlan) ∧ region rd = "us-central1" ∧
         In (planned Sample.jobRecord) (functionsToCreate rd)) ∧
  (∀ rd f, In rd (regionalDeployments Sample.demoPlan) →
           In f (functionsToUpdate rd) → name f ≠ name Sample.jobRecord).
Proof.
  split; [vm_compute; reflexivity|].
  apply (absent_created (C := Sample.collaborators) []
           Sample.demoMap Sample.demoExisting Sample.demoPlan
           "us-central1" [Sample.jobRecord; Sample.apiRecord] Sample.jobRecord).
  - vm_compute. reflexivity.
  - vm_compute. left. reflexivity.
  - vm_compute. left. reflexivity.
  - intros e He. vm_compute in He.
    destruct He as [<-|[<-|[<-|[]]]]; vm_compute; discriminate.
Defined.

(** ** Inputs on which the specification and the code part *)

(** C1: [regions: []] yields no record at all, in [us-central1] or elsewhere;
    the input is returned as it was and the map is empty. *)
Lemma empty_regions_counterexample :
  regions Sample.noRegionDef = Some [] ∧
  createFunctionsByRegionMap "demo" [Sample.noRegionDef] =
    ([Sample.noRegionDef], Return []).
Proof. split; reflexivity. Qed.

(** C2: a definition without [regions] has the field after the call. *)
Lemma input_mutated_counterexample :
  regions Sample.plainDef = None ∧
  List.map regions (createFunctionsByRegionMap "demo" [Sample.plainDef]).1 =
    [Some ["us-central1"]].
Proof. split; reflexivity. Qed.

(** C4: a scheduled desired function that the filters do not select is in
    no schedule list. *)
Lemma unselected_schedule_counterexample :
  schedule Sample.jobRecord = Some Sample.everyMinute ∧
  createDeploymentPlan [("us-central1", [Sample.jobRecord])] [] [["api"]] =
    Return (Sample.idlePlan "us-central1").
Proof. split; vm_compute; reflexivity. Qed.

(** C6: two desired records of one name, the first without a schedule and
    the second with one, against an existing scheduled function of that
    name: the name is in [schedulesToDelete] and in
    [schedulesToCreateOrUpdate]. *)
Lemma same_name_schedule_counterexample :
  ∃ plan,
    createDeploymentPlan
      [("us-central1", [Sample.reportPlain; Sample.reportTimed])]
      [Sample.reportExisting] [] = Return plan ∧
    schedulesToDelete plan = [Sample.reportName] ∧
    List.map (λ rd, List.map name (schedulesToCreateOrUpdate rd))
      (regionalDeployments plan) = [[Sample.reportName]].
Proof. eexists. repeat split; vm_compute; reflexivity. Qed.

(** C7: a definition that lists a region twice is filed twice for creation
    under one name. *)
Lemma repeated_region_counterexample :
  ∃ m plan,
    (createFunctionsByRegionMap "demo" [Sample.repeatedDef]).2 = Return m ∧
    createDeploymentPlan m [] [] = Return plan ∧
    filedNames plan =
      ["projects/demo/locations/us-east1/functions/api";
       "projects/demo/locations/us-east1/functions/api"].
Proof. eexists. eexists. repeat split; vm_compute; reflexivity. Qed.

(** C8: a desired function absent from the backend that the filters do not
    select is not filed for creation. *)
Lemma unselected_absent_counterexample :
  createDeploymentPlan [("us-central1", [Sample.apiRecord])] [] [["job"]] =
    Return (Sample.idlePlan "us-central1").
Proof. vm_compute. reflexivity. Qed.

(** C9: a scheduled desired function without an event trigger goes
    unnoticed when the filters do not select it, and otherwise ends the call
    with the runtime's [TypeError]. *)
Lemma no_validation_counterexample :
  schedule Sample.brokenJob = Some Sample.everyMinute ∧
  eventTrigger Sample.brokenJob = None ∧
  createDeploymentPlan [("us-central1", [Sample.brokenJob])] [] [["api"]] =
    Return (Sample.idlePlan "us-central1") ∧
  createDeploymentPlan [("us-central1", [Sample.brokenJob])] [] [] =
    Throw (TypeError "Cannot set property 'resource' of undefined").
Proof. repeat split; vm_compute; reflexivity. Qed.

(** C10 on [repeatedDef]: two records under [us-east1], of one name. *)
Example repeated_region_records :
  (createFunctionsByRegionMap "demo" [Sample.repeatedDef]).2 =
    Return Sample.repeatedMap ∧
  List.map (λ e : string * list CloudFunctionTrigger, (e.1, List.map name e.2))
    Sample.repeatedMap =
    [("us-east1",
      ["projects/demo/locations/us-east1/functions/api";
       "projects/demo/locations/us-east1/functions/api"])].
Proof. split; reflexivity. Qed.

(** A region named after a member of [Object.prototype] ends the call at
    line 76; the definition after it is left without [regions]. *)
Example prototype_region_throws :
  createFunctionsByRegionMap "demo" [Sample.prototypeDef; Sample.plainDef] =
    ([Sample.prototypeDef; Sample.plainDef],
     Throw (TypeError "regionMap[region].push is not a function")).
Proof. reflexivity. Qed.

(** Array indices come first in the enumeration order of the map. *)
Example index_regions_first :
  List.map fst
    (List.fold_left
       (λ m r, match RegionMapOps.push m r Sample.plainDef with
               | Return m' => m'
               | Throw _ => m
               end)
       ["us-east1"; "7"; "us-west1"; "10"; "3"; "us-east1"] []) =
    ["3"; "7"; "10"; "us-east1"; "us-west1"].
Proof. reflexivity. Qed.

(** ** Instances of the properties of the mapper *)

Lemma regions_effective_witness :
  createFunctionsByRegionMap "demo" [Sample.jobDef; Sample.apiDef] =
    (Sample.demoFilled, Return Sample.demoMap) ∧
  RegionMapOps.get Sample.demoMap "europe-west1" =
    match
      flat_map (λ t, List.map (projection "demo" t)
                       (List.filter (String.eqb "europe-west1") (effectiveRegions t)))
        [Sample.jobDef; Sample.apiDef]
    with
    | [] => None
    | l => Some l
    end ∧
  ∀ t, createFunctionsByRegionMap "demo" [set_regions (Some []) t] =
       ([set_regions (Some []) t], Return []).
Proof.
  split; [vm_compute; reflexivity|].
  apply (regions_effective "demo" [Sample.jobDef; Sample.apiDef]
           Sample.demoFilled Sample.demoMap "europe-west1").
  vm_compute. reflexivity.
Defined.

Lemma input_after_call_witness :
  createFunctionsByRegionMap "demo" [Sample.jobDef; Sample.apiDef] =
    (Sample.demoFilled, Return Sample.demoMap) ∧
  Forall2 (λ t t', set_regions (regions t) t' = t ∧
                   regions t' = Some (effectiveRegions t))
    [Sample.jobDef; Sample.apiDef] Sample.demoFilled.
Proof.
  split; [vm_compute; reflexivity|].
  apply (input_after_call "demo" [Sample.jobDef; Sample.apiDef]
           Sample.demoFilled Sample.demoMap).
  vm_compute. reflexivity.
Defined.

Lemma duplicates_kept_witness :
  createFunctionsByRegionMap "demo" [Sample.repeatedDef] =
    ([Sample.repeatedDef], Return Sample.repeatedMap) ∧
  recordsOf Sample.repeatedMap "us-east1" =
    flat_map (λ t, repeat (projection "demo" t "us-east1")
                     (occurrences "us-east1" (effectiveRegions t)))
      [Sample.repeatedDef] ∧
  ∀ t r1 r2,
    name (projection "demo" t r1) = name (projection "demo" t r2) ↔ r1 = r2.
Proof.
  split; [vm_compute; reflexivity|].
  apply (duplicates_kept "demo" [Sample.repeatedDef]
           [Sample.repeatedDef] Sample.repeatedMap "us-east1").
  vm_compute. reflexivity.
Defined.

Lemma mapper_records_witness :
  createFunctionsByRegionMap "demo" [Sample.jobDef; Sample.apiDef] =
    (Sample.demoFilled, Return Sample.demoMap) ∧
  regions Sample.apiRecord = None ∧
  ∃ t, In t [Sample.jobDef; Sample.apiDef] ∧ In "us-central1" (effectiveRegions t) ∧
       name Sample.apiRecord = qualifiedName "demo" "us-central1" (name t) ∧
       set_name (name t) Sample.apiRecord = set_regions None t.
Proof.
  split; [vm_compute; reflexivity|].
  apply (mapper_records "demo" [Sample.jobDef; Sample.apiDef]
           Sample.demoFilled Sample.demoMap "us-central1" Sample.apiRecord).
  - vm_compute. reflexivity.
  - vm_compute. right. left. reflexivity.
Defined.

Lemma mapper_keys_witness :
  createFunctionsByRegionMap "demo" [Sample.jobDef; Sample.apiDef] =
    (Sample.demoFilled, Return Sample.demoMap) ∧
  NoDup (List.map fst Sample.demoMap) ∧
  Forall (λ e : string * list CloudFunctionTrigger, e.2 ≠ []) Sample.demoMap ∧
  ∀ r, In r (List.map fst Sample.demoMap) ↔
       ∃ t, In t [Sample.jobDef; Sample.apiDef] ∧ In r (effectiveRegions t).
Proof.
  split; [vm_compute; reflexivity|].
  apply (mapper_keys "demo" [Sample.jobDef; Sample.apiDef]
           Sample.demoFilled Sample.demoMap).
  vm_compute. reflexivity.
Defined.

Lemma flatten_mapper_witness :
  createFunctionsByRegionMap "demo" [Sample.jobDef; Sample.apiDef] =
    (Sample.demoFilled, Return Sample.demoMap) ∧
  flattenRegionMap Sample.demoMap ≡ₚ
    flat_map (λ t, List.map (projection "demo" t) (effectiveRegions t))
      [Sample.jobDef; Sample.apiDef] ∧
  length (flattenRegionMap Sample.demoMap) =
    length (flat_map effectiveRegions [Sample.jobDef; Sample.apiDef]).
Proof.
  split; [vm_compute; reflexivity|].
  apply (flatten_mapper "demo" [Sample.jobDef; Sample.apiDef]
           Sample.demoFilled Sample.demoMap).
  vm_compute. reflexivity.
Defined.

Lemma distinct_regions_distinct_names_witness :
  NoDup (effectiveRegions Sample.apiDef) ∧
  createFunctionsByRegionMap "demo" [Sample.apiDef] =
    ([Sample.apiDef], Return Sample.apiMap) ∧
  NoDup (List.map name (flattenRegionMap Sample.apiMap)) ∧
  length (flattenRegionMap Sample.apiMap) = length (effectiveRegions Sample.apiDef).
Proof.
  assert (NoDup (effectiveRegions Sample.apiDef)) as Hnodup.
  { apply (bool_decide_unpack _). vm_compute. exact I. }
  split; [exact Hnodup|]. split; [vm_compute; reflexivity|].
  apply (distinct_regions_distinct_names "demo" Sample.apiDef
           [Sample.apiDef] Sample.apiMap Hnodup).
  vm_compute. reflexivity.
Defined.

Lemma mapper_thrown_witness :
  createFunctionsByRegionMap "demo" [Sample.prototypeDef; Sample.plainDef] =
    ([Sample.prototypeDef; Sample.plainDef],
     Throw (TypeError "regionMap[region].push is not a function")) ∧
  ∃ pre t post,
    [Sample.prototypeDef; Sample.plainDef] = pre ++ t :: post ∧
    [Sample.prototypeDef; Sample.plainDef] =
      List.map fillRegions pre ++ fillRegions t :: post ∧
    ∃ r, In r (effectiveRegions t) ∧ RegionMapOps.inherited r = true.
Proof.
  split; [vm_compute; reflexivity|].
  apply (mapper_thrown "demo" [Sample.prototypeDef; Sample.plainDef]
           [Sample.prototypeDef; Sample.plainDef]
           (TypeError "regionMap[region].push is not a function")).
  vm_compute. reflexivity.
Defined.

(** ** Instances of the further properties of the planner *)

Lemma plan_regions_witness :
  List.map region (regionalDeployments Sample.demoPlan) = List.map fst Sample.demoMap.
Proof.
  apply (plan_regions (C := Sample.collaborators) []
           Sample.demoMap Sample.demoExisting Sample.demoPlan).
  vm_compute. reflexivity.
Defined.

Lemma filed_exactly_selected_witness :
  Forall2 (λ entry rd,
             functionsToCreate rd ++ functionsToUpdate rd ≡ₚ
             List.map planned (List.filter (selected []) entry.2))
    Sample.demoMap (regionalDeployments Sample.demoPlan).
Proof.
  apply (filed_exactly_selected (C := Sample.collaborators) []
           Sample.demoMap Sample.demoExisting Sample.demoPlan).
  vm_compute. reflexivity.
Defined.

Lemma schedules_listed_witness :
  Forall2 (λ entry rd,
             schedulesToCreateOrUpdate rd =
               List.map planned
                 (List.filter (λ fn, selected [] fn && present (schedule fn))
                    entry.2) ∧
             ∀ f, In f (schedulesToCreateOrUpdate rd) →
                  In f (functionsToCreate rd ++ functionsToUpdate rd))
    Sample.demoMap (regionalDeployments Sample.demoPlan).
Proof.
  apply (schedules_listed (C := Sample.collaborators) []
           Sample.demoMap Sample.demoExisting Sample.demoPlan).
  vm_compute. reflexivity.
Defined.

Lemma only_resource_changes_witness :
  ∃ fns fn,
    In (region Sample.demoRegional, fns) Sample.demoMap ∧ In fn fns ∧
    selected [] fn = true ∧
    set_eventTrigger (eventTrigger fn) (planned Sample.jobRecord) = fn ∧
    (eventTrigger (planned Sample.jobRecord) = eventTrigger fn ∨
     ∃ trigger trigger',
       eventTrigger fn = Some trigger ∧
       eventTrigger (planned Sample.jobRecord) = Some trigger' ∧
       ∀ k, k ≠ "resource" → trigger' !! k = trigger !! k).
Proof.
  apply (only_resource_changes (C := Sample.collaborators) []
           Sample.demoMap Sample.demoExisting Sample.demoPlan
           Sample.demoRegional (planned Sample.jobRecord)).
  - vm_compute. reflexivity.
  - vm_compute. left. reflexivity.
  - vm_compute. left. reflexivity.
Defined.

Lemma schedulesToDelete_sound_witness :
  ∃ e l, In e Sample.demoExisting ∧ name e = Sample.oldName ∧
         labels e = Some l ∧ l !! "deployment-scheduled" = Some "true".
Proof.
  apply (schedulesToDelete_sound (C := Sample.collaborators) []
           Sample.demoMap Sample.demoExisting Sample.demoPlan Sample.oldName).
  - vm_compute. reflexivity.
  - vm_compute. right. left. reflexivity.
Defined.

Lemma deletions_exact_witness :
  functionsToDelete Sample.demoPlan =
    List.map name
      (deletable [] (List.filter (orphan [] Sample.demoMap) Sample.demoExisting)) ∧
  ∃ dropped,
    schedulesToDelete Sample.demoPlan =
      dropped ++
      List.map name
        (List.filter (λ e, scheduledLabel (Some e))
           (deletable [] (List.filter (orphan [] Sample.demoMap) Sample.demoExisting))).
Proof.
  apply (deletions_exact (C := Sample.collaborators) []
           Sample.demoMap Sample.demoExisting Sample.demoPlan).
  vm_compute. reflexivity.
Defined.

Lemma create_update_split_witness :
  Forall2 (λ entry rd,
             functionsToCreate rd =
               List.map planned
                 (List.filter (toCreate [] Sample.demoExisting) entry.2) ∧
             functionsToUpdate rd =
               List.map planned
                 (List.filter (toUpdate [] Sample.demoExisting) entry.2))
    Sample.demoMap (regionalDeployments Sample.demoPlan).
Proof.
  apply (create_update_split (C := Sample.collaborators) []
           Sample.demoMap Sample.demoExisting Sample.demoPlan).
  - apply (bool_decide_unpack _). vm_compute. exact I.
  - vm_compute. reflexivity.
Defined.

Lemma schedulesToDelete_exact_witness :
  schedulesToDelete Sample.demoPlan =
    List.map name
      (List.filter (losesSchedule [] Sample.demoExisting)
         (flattenRegionMap Sample.demoMap)) ++
    List.map name
      (List.filter (λ e, scheduledLabel (Some e))
         (deletable [] (List.filter (orphan [] Sample.demoMap) Sample.demoExisting))).
Proof.
  apply (schedulesToDelete_exact (C := Sample.collaborators) []
           Sample.demoMap Sample.demoExisting Sample.demoPlan).
  - apply (bool_decide_unpack _). vm_compute. exact I.
  - vm_compute. reflexivity.
Defined.

Lemma fresh_deployment_witness :
  Sample.freshPlan =
    mkPlan
      (List.map
         (λ entry : string * list CloudFunctionTrigger,
            mkRegional entry.1 None None
              (List.map planned (List.filter (selected []) entry.2)) []
              (List.map planned
                 (List.filter (λ fn, selected [] fn && present (schedule fn))
                    entry.2)))
         Sample.demoMap)
      [] [].
Proof.
  apply (fresh_deployment (C := Sample.collaborators) []
           Sample.demoMap Sample.freshPlan).
  vm_compute. reflexivity.
Defined.

Lemma optional_fields_unset_witness :
  sourceToken Sample.demoRegional = None ∧
  firstFunctionDeployment Sample.demoRegional = None.
Proof.
  apply (optional_fields_unset (C := Sample.collaborators) []
           Sample.demoMap Sample.demoExisting Sample.demoPlan Sample.demoRegional).
  - vm_compute. reflexivity.
  - vm_compute. left. reflexivity.
Defined.
